(** * Verification of [server.c]: a thread-pooled static-file HTTP server

    The development embeds the request-handling pipeline of [server.c]
    ([parse_request], [supported_file], [get_full_path], [write_headers],
    [get_length_bytes], [write_content_length], [read_write_file],
    [construct_file_response], [process_client_request]) and settles the
    properties claimed of it.

    Conventions.
    - A value of type [cstring] is the content of a NUL-terminated C string:
      the bytes before the terminator.
    - A value of type [memory] is a heap block seen byte by byte; pointers
      into it are offsets.  [strtok_r] writes terminators into such a block,
      as the C library does.
    - The connection, the file system and the process are explicit state:
      every call of [write] and [close] is logged in a trace, and a
      computation ends by returning, by [exit(EXIT_FAILURE)], or in undefined
      behaviour (a NULL pointer handed to [strdup], a store outside a block).
    - The small allocations ([strdup], the path, the header buffers) are
      assumed to succeed, and the [exit(EXIT_FAILURE)] branches that guard
      them are not modelled.  The block [read_write_file] allocates has
      the size the file reports: [malloc] can refuse it, and that branch
      is modelled. *)

From Stdlib Require Import List Ascii String ZArith Lia Bool.
Import ListNotations.

(* ================================================================= *)
(** ** C strings and the string functions of the C library *)

Module CStr.

Definition cstring := list ascii.
Definition memory := list ascii.

Definition NUL : ascii := "000"%char.
Definition LF : ascii := "010"%char.
Definition CR : ascii := "013"%char.
Definition SP : ascii := " "%char.
Definition DOT : ascii := "."%char.

(** String literals of the source. *)
Definition cs (s : string) : cstring := list_ascii_of_string s.

Definition is_nul (c : ascii) : bool := Ascii.eqb c NUL.

(** The C string that starts a list of bytes: everything before the first
    NUL (the end of the list counts as a terminator). *)
Fixpoint c_str (bytes : list ascii) : cstring :=
  match bytes with
  | [] => []
  | c :: rest => if is_nul c then [] else c :: c_str rest
  end.

(** The C string found at offset [p] of a block. *)
Definition cstr_at (mem : memory) (p : nat) : cstring := c_str (skipn p mem).

(** [*(mem + p)]; past the block the model reads a terminator. *)
Definition load (mem : memory) (p : nat) : ascii := nth p mem NUL.

(** [mem[p] = c]. *)
Fixpoint store (mem : memory) (p : nat) (c : ascii) : memory :=
  match mem, p with
  | [], _ => []
  | _ :: rest, O => c :: rest
  | x :: rest, S p' => x :: store rest p' c
  end.

Definition strlen (s : cstring) : nat := List.length s.

(** [strdup]: a fresh block holding the string and its terminator. *)
Definition strdup (s : cstring) : memory := s ++ [NUL].

Definition mem_char (c : ascii) (set : cstring) : bool :=
  existsb (Ascii.eqb c) set.

(** [strspn(s, accept)]: length of the prefix made of bytes of [accept]. *)
Fixpoint strspn (s accept : cstring) : nat :=
  match s with
  | [] => 0
  | c :: rest => if mem_char c accept then S (strspn rest accept) else 0
  end.

(** [strcspn(s, reject)]: length of the prefix free of bytes of [reject]. *)
Fixpoint strcspn (s reject : cstring) : nat :=
  match s with
  | [] => 0
  | c :: rest => if mem_char c reject then 0 else S (strcspn rest reject)
  end.

(** [strtok_r(s, delim, &saveptr)] on a block.  [s = None] is a NULL first
    argument: the scan resumes at [saveptr].  The result is the block after
    the call, the returned pointer ([None] for NULL) and the new [saveptr].

    Skip the delimiters, stop at the terminator with NULL; otherwise the
    token runs to the next delimiter, which is overwritten by a terminator
    (the scan resumes after it), or to the end of the string (the scan
    resumes on the terminator). *)
Definition strtok_r (mem : memory) (s : option nat) (delim : cstring)
    (saveptr : nat) : memory * option nat * nat :=
  let s0 := match s with Some p => p | None => saveptr end in
  if is_nul (load mem s0) then (mem, None, s0) else
  let s1 := s0 + strspn (cstr_at mem s0) delim in
  if is_nul (load mem s1) then (mem, None, s1) else
  let e := s1 + strcspn (cstr_at mem s1) delim in
  if is_nul (load mem e) then (mem, Some s1, e)
  else (store mem e NUL, Some s1, S e).

(** [strcmp]: only the sign of the result is specified; bytes compare as
    unsigned values. *)
Fixpoint strcmp (a b : cstring) : comparison :=
  match a, b with
  | [], [] => Eq
  | [], _ :: _ => Lt
  | _ :: _, [] => Gt
  | x :: a', y :: b' =>
      match Nat.compare (nat_of_ascii x) (nat_of_ascii y) with
      | Eq => strcmp a' b'
      | o => o
      end
  end.

(** [strcmp(a, b) == 0] *)
Definition strcmp_is_zero (a b : cstring) : bool :=
  match strcmp a b with Eq => true | _ => false end.

(** [strrchr(s, c)]: the suffix that starts at the last [c], NULL if none. *)
Fixpoint strrchr (s : cstring) (c : ascii) : option cstring :=
  match s with
  | [] => None
  | x :: rest =>
      match strrchr rest c with
      | Some suffix => Some suffix
      | None => if Ascii.eqb x c then Some s else None
      end
  end.

(** [sprintf(buffer, format, data)] for a format with one [%s] directive:
    the format is copied, [data] replacing the directive. *)
Fixpoint sprintf (format data : cstring) : cstring :=
  match format with
  | [] => []
  | c :: rest =>
      match rest with
      | d :: rest' =>
          if (Ascii.eqb c "%"%char && Ascii.eqb d "s"%char)%bool
          then data ++ rest'
          else c :: sprintf rest data
      | [] => [c]
      end
  end.

(** A run of bytes with no terminator and no byte of [set] in it. *)
Definition free_of (set : cstring) (s : cstring) : bool :=
  forallb (fun c => negb (is_nul c) && negb (mem_char c set)) s.

End CStr.

Import CStr.

(* ================================================================= *)
(** ** The process, the connection and the file system *)

Module Sys.

(** How a computation ends: it returns, the process terminates through
    [exit], the behaviour is undefined, or the model's loop bound is hit. *)
Inductive fault := NullPointer | OutOfBounds.

Inductive outcome (A : Type) :=
| Returned (a : A)
| Exited (code : Z)
| Undefined (f : fault)
| OutOfFuel.

Arguments Returned {A} a.
Arguments Exited {A} code.
Arguments Undefined {A} f.
Arguments OutOfFuel {A}.

Definition EXIT_FAILURE : Z := 1.

(** What the kernel answers to one [write]: an error, or the number of
    bytes it takes (a count below the request is a short write). *)
Inductive write_result := WriteError | Accepts (n : nat).

Inductive event :=
| Wrote (bytes : list ascii)
| Closed.

(** One accepted client socket.  [incoming] is what [read] delivers
    ([None]: [read] fails).  [pending] answers the coming calls of [write]
    in order; once it is used up every [write] is complete.  [trace] logs
    the bytes taken by each [write] and every [close]. *)
Record connection := {
  incoming : option (list ascii);
  pending : list write_result;
  trace : list event
}.

(** A file as [fopen], [ftell] and [fread] see it: [ftell_size] is the
    offset reported at the end of the file, [stored] the bytes [fread] can
    deliver afterwards (fewer than [ftell_size] when the file shrank). *)
Record file := {
  readable : bool;
  ftell_size : Z;
  stored : list ascii
}.

Definition filesystem := cstring -> option file.

Definition M (A : Type) : Type := connection -> connection * outcome A.

Definition ret {A} (a : A) : M A := fun c => (c, Returned a).

Definition bind {A B} (m : M A) (k : A -> M B) : M B :=
  fun c =>
    match m c with
    | (c', Returned a) => k a c'
    | (c', Exited code) => (c', Exited code)
    | (c', Undefined f) => (c', Undefined f)
    | (c', OutOfFuel) => (c', OutOfFuel)
    end.

Definition exit {A} (code : Z) : M A := fun c => (c, Exited code).

Definition lift {A} (o : outcome A) : M A := fun c => (c, o).

Definition log (e : event) (c : connection) : connection :=
  {| incoming := incoming c; pending := pending c; trace := trace c ++ [e] |}.

Definition drop_pending (c : connection) : connection :=
  {| incoming := incoming c; pending := tl (pending c); trace := trace c |}.

(** [write(client, buf, count)] with [buf] holding exactly [count] bytes. *)
Definition write (buf : list ascii) : M Z :=
  fun c =>
    match pending c with
    | [] => (log (Wrote buf) c, Returned (Z.of_nat (List.length buf)))
    | WriteError :: _ => (drop_pending c, Returned (-1)%Z)
    | Accepts n :: _ =>
        let taken := firstn n buf in
        (log (Wrote taken) (drop_pending c),
         Returned (Z.of_nat (List.length taken)))
    end.

(** [read(client, buffer, count)]: the result and the buffer afterwards;
    [before] is what the buffer held. *)
Definition read (before : list ascii) (count : nat) : M (Z * list ascii) :=
  fun c =>
    match incoming c with
    | None => (c, Returned ((-1)%Z, before))
    | Some data =>
        let got := firstn count data in
        (c, Returned (Z.of_nat (List.length got),
                      got ++ skipn (List.length got) before))
    end.

Definition close : M unit := fun c => (log Closed c, Returned tt).

(** [access(path, F_OK) == 0]: the path exists. *)
Definition access_F_OK (fs : filesystem) (path : cstring) : bool :=
  match fs path with Some _ => true | None => false end.

(** [fopen(path, "rb")]: the file must exist and be readable. *)
Definition fopen_rb (fs : filesystem) (path : cstring) : option file :=
  match fs path with
  | Some f => if readable f then Some f else None
  | None => None
  end.

(** Observations on a trace. *)
Fixpoint bytes_sent (t : list event) : list ascii :=
  match t with
  | [] => []
  | Wrote b :: t' => b ++ bytes_sent t'
  | Closed :: t' => bytes_sent t'
  end.

Fixpoint close_count (t : list event) : nat :=
  match t with
  | [] => 0
  | Wrote _ :: t' => close_count t'
  | Closed :: t' => S (close_count t')
  end.

End Sys.

Import Sys.

Declare Scope sys_scope.
Notation "x <- m ;; k" := (bind m (fun x => k))
  (at level 61, m at next level, right associativity) : sys_scope.
Notation "m ;; k" := (bind m (fun _ => k))
  (at level 61, right associativity) : sys_scope.

(* ================================================================= *)
(** ** [server.c] *)

Module Server.

Local Open Scope sys_scope.

(** Modelled from the spec: [server.h] is not among the sources.  It
    declares the two status codes, [ERROR] (the failure value of the system
    calls), the record types [http_request] and [file_properties] and the
    macro [ARRAY_LENGTH]; [BUFFER_SIZE] is left as a parameter of
    [process_client_request]. *)
Inductive status_code := FOUND | NOT_FOUND.

Definition ERROR : Z := (-1)%Z.

Record file_properties := {
  extension : cstring;
  mime_type : cstring
}.

Record http_request := {
  method : cstring;
  URI : cstring;
  httpversion : cstring
}.

Definition CRLF : cstring := [CR; LF].

(** Header constants *)
Definition found : cstring := cs "%s 200 OK" ++ CRLF.
Definition content_header : cstring := cs "Content-Type: %s" ++ CRLF.
Definition length_header : cstring := cs "Content-Length: %s" ++ CRLF ++ CRLF.

Definition not_found : cstring := cs "%s 404 Not Found" ++ CRLF.
Definition not_supported : cstring :=
  cs "Content-Type: application/octet-stream" ++ CRLF.
Definition no_content : cstring := cs "Content-Length: 0" ++ CRLF ++ CRLF.

(** Hardcoded mime types *)
Definition file_map : list file_properties :=
  [ {| extension := cs ".html"; mime_type := cs "text/html" |};
    {| extension := cs ".jpg"; mime_type := cs "image/jpeg" |};
    {| extension := cs ".css"; mime_type := cs "text/css" |};
    {| extension := cs ".js"; mime_type := cs "text/javascript" |} ].

(** [parse_request].  [copy] is the block the three calls of [strtok_r]
    work on; [strdup(path)] with [path == NULL] and the store at index
    [strlen(saveptr) - 1] of an empty [httpversion] are undefined. *)
Definition parse_request (response : cstring) : outcome http_request :=
  let copy := strdup response in
  (* Extract just the first line *)
  let '(copy, _, saveptr) := strtok_r copy (Some 0) [LF] 0 in
  (* Extract the method *)
  let '(copy, path, saveptr) := strtok_r copy (Some 0) [SP] saveptr in
  match path with
  | None => Undefined NullPointer
  | Some p =>
      let method_ := cstr_at copy p in
      (* Extract the URI *)
      let '(copy, path, saveptr) := strtok_r copy None [SP] saveptr in
      match path with
      | None => Undefined NullPointer
      | Some p =>
          let URI_ := cstr_at copy p in
          (* Extract the http version *)
          let httpversion_ := cstr_at copy saveptr in
          match strlen httpversion_ with
          | O => Undefined OutOfBounds
          | S last =>
              Returned {| method := method_;
                          URI := URI_;
                          httpversion :=
                            c_str (store (strdup httpversion_) last NUL) |}
          end
      end
  end.

(** [supported_file]: the loop over [file_map]. *)
Fixpoint supported_loop (entries : list file_properties) (ext : cstring)
    : bool :=
  match entries with
  | [] => false
  | entry :: rest =>
      if strcmp_is_zero (extension entry) ext then true
      else supported_loop rest ext
  end.

Definition supported_file (ext : cstring) : bool :=
  supported_loop file_map ext.

(** [get_full_path]: the path and the status stored through [status]. *)
Definition get_full_path (fs : filesystem) (webroot path : cstring)
    : cstring * status_code :=
  let full_path := webroot ++ path in
  let ext := strrchr full_path DOT in
  let status :=
    match ext with
    | Some e =>
        if (access_F_OK fs full_path && supported_file e)%bool
        then FOUND else NOT_FOUND
    | None => NOT_FOUND
    end in
  (full_path, status).

(** [write_headers] *)
Definition write_headers (data defaults : cstring) : M unit :=
  let buffer := sprintf defaults data in
  n <- write buffer ;;
  if (n =? ERROR)%Z then exit EXIT_FAILURE else ret tt.

(** [size_t] is 64 bits wide. *)
Definition size_t_bits : nat := 64.
Definition SIZE_MOD : Z := (2 ^ 64)%Z.
Definition to_size_t (z : Z) : Z := (z mod SIZE_MOD)%Z.

(** [get_length_bytes]: the [while] loop, one iteration per unit of fuel. *)
Fixpoint get_length_loop (fuel : nat) (temp count : Z) : option Z :=
  match fuel with
  | O => None
  | S fuel' =>
      if (temp =? 0)%Z then Some count
      else get_length_loop fuel' (temp / 10)%Z (to_size_t (count + 1))
  end.

Definition get_length_bytes (bytes : Z) : option Z :=
  get_length_loop (S size_t_bits) bytes 0%Z.

(** [%zu]: the decimal digits of a [size_t], most significant first. *)
Definition digit_char (d : Z) : ascii := ascii_of_nat (48 + Z.to_nat d).

Fixpoint zu_digits (fuel : nat) (n : Z) (acc : cstring) : cstring :=
  match fuel with
  | O => acc
  | S fuel' =>
      let acc' := digit_char (n mod 10)%Z :: acc in
      if (n / 10 =? 0)%Z then acc' else zu_digits fuel' (n / 10)%Z acc'
  end.

Definition format_zu (n : Z) : cstring := zu_digits (S size_t_bits) n [].

(** [snprintf(str, size, "%zu", n)]: at most [size - 1] bytes are kept. *)
Definition snprintf_zu (size : Z) (n : Z) : cstring :=
  firstn (Z.to_nat (size - 1)) (format_zu n).

(** [write_content_length] *)
Definition write_content_length (bytes_read : Z) : M unit :=
  match get_length_bytes bytes_read with
  | None => lift OutOfFuel
  | Some length_bytes =>
      let total_bytes :=
        to_size_t (Z.of_nat (strlen length_header) + length_bytes) in
      let content_length :=
        snprintf_zu (to_size_t (total_bytes + 1)) bytes_read in
      write_headers content_length length_header
  end.

(** [malloc(size)] for the block of a file.  The process has a heap limit,
    at least one byte: a request above it is refused, and so is every
    request above [PTRDIFF_MAX], whatever the limit. *)
Definition PTRDIFF_MAX : Z := (2 ^ 63 - 1)%Z.

Definition malloc_succeeds (heap_limit : positive) (size : Z) : bool :=
  (size <=? Z.min PTRDIFF_MAX (Z.pos heap_limit))%Z.

(** [read_write_file].  The block for the file has [buffer_size + 1]
    bytes, the sum taken in [size_t]; when [malloc] refuses it the process
    exits.  [fread] is asked for [file_size] bytes converted to [size_t]
    and stores what the file delivers, which is undefined when that
    exceeds the block (possible only when the sum wrapped, after a failed
    [ftell]). *)
Definition read_write_file (heap_limit : positive) (fs : filesystem)
    (path : cstring) : M unit :=
  match fopen_rb fs path with
  | None => exit EXIT_FAILURE
  | Some requested_file =>
      let file_size := ftell_size requested_file in
      let buffer_size := to_size_t file_size in
      let allocated := to_size_t (buffer_size + 1) in
      if negb (malloc_succeeds heap_limit allocated) then exit EXIT_FAILURE
      else
        let buffer :=
          firstn (Z.to_nat (to_size_t file_size)) (stored requested_file) in
        let bytes_read := Z.of_nat (List.length buffer) in
        if (allocated <? bytes_read)%Z then lift (Undefined OutOfBounds)
        else if (bytes_read =? buffer_size)%Z then
          write_content_length bytes_read ;;
          n <- write buffer ;;
          if (n =? ERROR)%Z then exit EXIT_FAILURE else ret tt
        else ret tt
  end.

(** [construct_file_response]: the loop over [file_map] returns the flag
    [found] it leaves behind. *)
Fixpoint content_type_loop (entries : list file_properties)
    (requested_file_extension : cstring) : M bool :=
  match entries with
  | [] => ret false
  | entry :: rest =>
      if strcmp_is_zero (extension entry) requested_file_extension then
        write_headers (mime_type entry) content_header ;;
        ret true
      else content_type_loop rest requested_file_extension
  end.

Definition construct_file_response (httpversion_ path status : cstring)
    : M unit :=
  write_headers httpversion_ status ;;
  match strrchr path DOT with
  | None => _ <- write not_supported ;; ret tt
  | Some requested_file_extension =>
      found_ <- content_type_loop file_map requested_file_extension ;;
      if negb found_ then _ <- write not_supported ;; ret tt
      else ret tt
  end.

(** The process-wide settings [process_client_request] depends on: the
    global [webroot], the constant [BUFFER_SIZE] of [server.h], the file
    system, what the stack holds where [buffer] is allocated (the array
    is not initialised and [read] does not terminate it), and the heap
    limit of the process. *)
Record environment := {
  webroot : cstring;
  BUFFER_SIZE : nat;
  files : filesystem;
  stack : list ascii;
  heap_limit : positive
}.

(** [process_client_request] *)
Definition process_client_request (env : environment) : M unit :=
  r <- read (stack env) (BUFFER_SIZE env - 1) ;;
  let '(n, buffer) := r in
  if (n =? ERROR)%Z then exit EXIT_FAILURE
  else
    request <- lift (parse_request (c_str buffer)) ;;
    let '(path, status_code_) :=
      get_full_path (files env) (webroot env) (URI request) in
    match status_code_ with
    | FOUND =>
        construct_file_response (httpversion request) path found ;;
        read_write_file (heap_limit env) (files env) path
    | NOT_FOUND =>
        construct_file_response (httpversion request) path not_found ;;
        _ <- write no_content ;;
        ret tt
    end ;;
    close.

End Server.

Import Server.


(* ================================================================= *)
(** ** The vocabulary of the specification *)

Module Spec.

Definition TAB : ascii := "009"%char.

Definition is_space (c : ascii) : bool := Ascii.eqb c SP || Ascii.eqb c TAB.

(** The first line of a buffer: the bytes before the first line feed. *)
Fixpoint first_line (raw : list ascii) : list ascii :=
  match raw with
  | [] => []
  | c :: rest => if Ascii.eqb c LF then [] else c :: first_line rest
  end.

(** The whitespace-separated tokens of a line; [cur] is the token being
    read, last byte first. *)
Fixpoint split_ws (line cur : list ascii) : list (list ascii) :=
  match line with
  | [] => match cur with [] => [] | _ => [rev cur] end
  | c :: rest =>
      if is_space c then
        match cur with
        | [] => split_ws rest []
        | _ => rev cur :: split_ws rest []
        end
      else split_ws rest (c :: cur)
  end.

Definition tokens (line : list ascii) : list (list ascii) := split_ws line [].

(** A token with its trailing carriage return removed. *)
Fixpoint trim_terminator (token : list ascii) : list ascii :=
  match token with
  | [] => []
  | [c] => if Ascii.eqb c CR then [] else [c]
  | c :: rest => c :: trim_terminator rest
  end.

(** "The third whitespace-separated token of the request's first line with
    its trailing line terminator trimmed." *)
Definition third_token_trimmed (raw : list ascii) : option (list ascii) :=
  option_map trim_terminator (nth_error (tokens (first_line raw)) 2).

(** No blank in a run of bytes. *)
Definition blank_free (t : list ascii) : bool :=
  forallb (fun c => negb (is_space c)) t.

(** A request token: not empty, and free of blanks, line terminators and
    NUL. *)
Definition is_token (t : list ascii) : bool :=
  match t with
  | [] => false
  | _ => free_of [SP; TAB; CR; LF] t
  end.

(** The extensions of the MimeMapping entries. *)
Definition supported_extensions : list cstring := map extension file_map.

(** "The resulting path is readable on the filesystem." *)
Definition path_readable (fs : filesystem) (path : cstring) : bool :=
  match fopen_rb fs path with Some _ => true | None => false end.

(** The condition the specification gives for the verdict [Found]: an
    extension exists, the path is readable, the extension is one of the
    MimeMapping entries. *)
Definition found_condition (fs : filesystem) (webroot uri : cstring) : Prop :=
  exists ext,
    strrchr (webroot ++ uri) DOT = Some ext /\
    path_readable fs (webroot ++ uri) = true /\
    In ext supported_extensions.

(** The number a header value denotes, read as decimal digits. *)
Definition digit_value (c : ascii) : option Z :=
  let n := nat_of_ascii c in
  if (48 <=? n)%nat && (n <=? 57)%nat then Some (Z.of_nat (n - 48))
  else None.

Fixpoint decimal_from (acc : Z) (digits : list ascii) : option Z :=
  match digits with
  | [] => Some acc
  | c :: rest =>
      match digit_value c with
      | Some d => decimal_from (acc * 10 + d)%Z rest
      | None => None
      end
  end.

Definition decimal_value (digits : list ascii) : option Z :=
  match digits with
  | [] => None
  | _ => decimal_from 0%Z digits
  end.

(** What [fread] delivers when asked for as many bytes as [ftell]
    announced, and how many bytes that is. *)
Definition fread_all (f : file) : list ascii :=
  firstn (Z.to_nat (to_size_t (ftell_size f))) (stored f).

Definition bytes_read (f : file) : Z := Z.of_nat (List.length (fread_all f)).

(** The MIME type the table gives an extension. *)
Definition lookup_mime (ext : cstring) : option cstring :=
  option_map mime_type
    (find (fun entry => strcmp_is_zero (extension entry) ext) file_map).

(** The Content-Type a response for [path] carries: the MIME type of the
    path's extension, [application/octet-stream] without one. *)
Definition content_type_of (path : cstring) : cstring :=
  match strrchr path DOT with
  | Some ext =>
      match lookup_mime ext with
      | Some mime => mime
      | None => cs "application/octet-stream"
      end
  | None => cs "application/octet-stream"
  end.

(** The lines of a response. *)
Definition status_line (version phrase : cstring) : list ascii :=
  version ++ SP :: phrase ++ CRLF.

Definition header_line (name value : cstring) : list ascii :=
  name ++ cs ": " ++ value ++ CRLF.

(** What the request buffer of [process_client_request] holds after
    [read] delivered [data]. *)
Definition request_buffer (env : environment) (data : list ascii)
    : list ascii :=
  let got := firstn (BUFFER_SIZE env - 1) data in
  got ++ skipn (List.length got) (stack env).

(** The connection after further events. *)
Definition after (c : connection) (events : list event) : connection :=
  {| incoming := incoming c;
     pending := pending c;
     trace := trace c ++ events |}.

(** A computation that never closes the connection. *)
Definition never_closes {A} (m : M A) : Prop :=
  forall c, close_count (trace (fst (m c))) = close_count (trace c).

(** A computation that closes the connection once, as its last action,
    when it returns, and not at all when it does not return. *)
Definition closes_on_return {A} (m : M A) : Prop :=
  forall c,
    match snd (m c) with
    | Returned _ =>
        close_count (trace (fst (m c))) = S (close_count (trace c))
        /\ exists t, trace (fst (m c)) = t ++ [Closed]
    | _ => close_count (trace (fst (m c))) = close_count (trace c)
    end.

(** Where a run of the handler can meet an I/O failure: at [read], or at
    its [k]-th [write] (counting from 0). *)
Inductive io_failure := ReadFails | WriteFails (k : nat).

(** The socket fails the [k]-th [write] after taking the earlier ones,
    wholly or in part. *)
Fixpoint write_fails_at (k : nat) (answers : list write_result) : bool :=
  match k, answers with
  | O, WriteError :: _ => true
  | S k', Accepts _ :: rest => write_fails_at k' rest
  | _, _ => false
  end.

(** Whether the code compares the result of the Content-Type write with
    [ERROR]: it does for a MIME type of the table ([write_headers]), not
    for the [application/octet-stream] line. *)
Definition type_write_checked (path : cstring) : bool :=
  match strrchr path DOT with
  | Some ext => supported_file ext
  | None => false
  end.

(** The writes the handler performs for a request when none fails, in
    order; [true] marks those whose result the code compares with
    [ERROR]. *)
Definition planned_writes (env : environment) (request : http_request)
    : list bool :=
  let path := webroot env ++ URI request in
  match snd (get_full_path (files env) (webroot env) (URI request)) with
  | FOUND =>
      [true; type_write_checked path]
      ++ match fopen_rb (files env) path with
         | Some f =>
             if negb (malloc_succeeds (heap_limit env)
                        (to_size_t (to_size_t (ftell_size f) + 1)))
             then []
             else
             if (to_size_t (to_size_t (ftell_size f) + 1) <? bytes_read f)%Z
             then []
             else if (bytes_read f =? to_size_t (ftell_size f))%Z
                  then [true; true]
                  else []
         | None => []
         end
  | NOT_FOUND => [true; type_write_checked path; false]
  end.

(** [Some true]: the failure happens in this run, at a call whose result
    the code checks; [Some false]: it happens at a call whose result the
    code ignores; [None]: it does not happen in this run. *)
Definition failure_is_checked (env : environment) (c : connection)
    (p : io_failure) : option bool :=
  match p, incoming c with
  | ReadFails, None => Some true
  | ReadFails, Some _ => None
  | WriteFails _, None => None
  | WriteFails k, Some data =>
      match parse_request (c_str (request_buffer env data)) with
      | Returned request =>
          if write_fails_at k (pending c)
          then nth_error (planned_writes env request) k
          else None
      | _ => None
      end
  end.

End Spec.

Import Spec.

(* ================================================================= *)
(** ** Concrete servers and connections *)

Module Examples.

Definition a_file (is_readable : bool) (content : string) : file :=
  {| readable := is_readable;
     ftell_size := Z.of_nat (List.length (cs content));
     stored := cs content |}.

(** A web root with a 12-byte page, a page the server may not read, an
    empty style sheet, an archive, and a script that shrank between the
    size probe and the read. *)
Definition www : filesystem :=
  fun path =>
    if strcmp_is_zero path (cs "/srv/www/index.html")
    then Some (a_file true "Hello world!")
    else if strcmp_is_zero path (cs "/srv/www/secret.html")
    then Some (a_file false "top secret")
    else if strcmp_is_zero path (cs "/srv/www/empty.css")
    then Some (a_file true "")
    else if strcmp_is_zero path (cs "/srv/www/archive.zip")
    then Some (a_file true "PK")
    else if strcmp_is_zero path (cs "/srv/www/app.js")
    then Some {| readable := true; ftell_size := 40; stored := cs "var x;" |}
    else None.

Definition server : environment :=
  {| webroot := cs "/srv/www";
     BUFFER_SIZE := 1024;
     files := www;
     stack := cs "left over";
     heap_limit := 1073741824%positive |}.

(** A client that sends one request line and a socket that takes every
    byte written to it. *)
Definition client (request_line : string) : connection :=
  {| incoming := Some (cs request_line ++ CRLF);
     pending := [];
     trace := [] |}.

(** The same client behind a socket whose writes fail as listed. *)
Definition client_with (request_line : string) (answers : list write_result)
    : connection :=
  {| incoming := Some (cs request_line ++ CRLF);
     pending := answers;
     trace := [] |}.

(** A client whose [read] fails. *)
Definition broken_client : connection :=
  {| incoming := None; pending := []; trace := [] |}.

End Examples.

(** Lists written as nested concatenations, flattened to the right. *)
Ltac flat := repeat (rewrite <- app_assoc; simpl); simpl.
Ltac flat_in H :=
  repeat (rewrite <- app_assoc in H; simpl in H); simpl in H.


(* ================================================================= *)
(** ** [strtok_r] and [parse_request] on strings *)

Module Tokenizer.

(** What [strtok_r] does to a C string, told without the block: skip the
    bytes of [set], take the token up to the next byte of [set], go on
    after that byte. *)

Fixpoint skip_set (set s : cstring) : cstring :=
  match s with
  | [] => []
  | c :: rest => if mem_char c set then skip_set set rest else s
  end.

(** The token that starts a string: its longest prefix free of [set]. *)
Definition take_token (set s : cstring) : cstring := firstn (strcspn s set) s.

(** What follows the byte of [set] that ends the token; nothing when the
    token runs to the end of the string. *)
Fixpoint after_token (set s : cstring) : cstring :=
  match s with
  | [] => []
  | c :: rest => if mem_char c set then rest else after_token set rest
  end.

(** The next token and the rest of the string, if a token is left. *)
Definition next_token (set s : cstring) : option (cstring * cstring) :=
  match skip_set set s with
  | [] => None
  | s1 => Some (take_token set s1, after_token set s1)
  end.

(** The C string at [copy] after the first call of [strtok_r]: the leading
    line feeds, which the call skipped but did not remove, and the first
    line.  The second call starts at [copy] again and reads this. *)
Definition first_line_view (s : cstring) : cstring :=
  match next_token [LF] s with
  | None => s
  | Some (line, _) => firstn (strspn s [LF]) s ++ line
  end.

(** [parse_request] told on strings: two tokens separated by blanks, then
    the rest of the first line less its last byte. *)
Definition parse_request_pure (raw : list ascii) : outcome http_request :=
  match next_token [SP] (first_line_view (c_str raw)) with
  | None => Undefined NullPointer
  | Some (m, after_method) =>
      match next_token [SP] after_method with
      | None => Undefined NullPointer
      | Some (u, after_uri) =>
          match after_uri with
          | [] => Undefined OutOfBounds
          | _ => Returned {| method := m; URI := u;
                             httpversion := removelast after_uri |}
          end
      end
  end.

(** A run of bytes of [set], none of them the terminator. *)
Definition all_in (set s : cstring) : bool :=
  forallb (fun c => negb (is_nul c) && mem_char c set) s.

(** No blank in a buffer. *)
Definition no_blank (s : list ascii) : bool :=
  forallb (fun c => negb (Ascii.eqb c SP)) s.

End Tokenizer.
Import Tokenizer.
(* ================================================================= *)
(** ** What the handler does not look at *)

Module Independence.

(** The same connection with other bytes to read. *)
Definition with_incoming (i : option (list ascii)) (c : connection)
    : connection :=
  {| incoming := i; pending := pending c; trace := trace c |}.

(** A computation that runs the same way whatever is left to read. *)
Definition ignores_incoming {A} (m : M A) : Prop :=
  forall i c,
    m (with_incoming i c) = (with_incoming i (fst (m c)), snd (m c)).

End Independence.

Import Independence.

(* ================================================================= *)
(** ** [setup_listening_socket] and [main] *)

Module Listener.

(** The calls [main] and [setup_listening_socket] make, with the arguments
    that matter.  [initialise_threadpool] and [add_client_work] belong to
    the thread pool, whose code is not among the sources: the model logs
    the calls and what they are given. *)
Inductive call :=
| call_socket                          (* socket(AF_INET, SOCK_STREAM, 0) *)
| call_setsockopt (sock : Z)               (* SOL_SOCKET, SO_REUSEADDR, 1 *)
| call_bind (sock : Z) (port : Z)               (* INADDR_ANY, this port *)
| call_listen (sock : Z) (backlog : Z)
| call_accept (sock : Z)
| call_initialise_threadpool
| call_add_client_work (client : Z)
| store_webroot (root : cstring).   (* webroot = argv[2]: no call, logged
                                       to fix its place among the calls *)

(** The kernel: [answer n] is what the [n]-th system call returns, [next]
    counts the system calls made, [calls] logs every call, [webroot_set]
    is the global [webroot] (NULL at the start). *)
Record kernel := {
  answer : nat -> Z;
  next : nat;
  calls : list call;
  webroot_set : option cstring
}.

(** How a run ends: the function returned, the process left through
    [exit], [atoi] was given a number no [int] holds (undefined), or the
    accept loop is still going when the observation stops. *)
Inductive ending (A : Type) :=
| Finished (a : A)
| ProcessExit (code : Z)
| UndefinedConversion
| StillRunning.

Arguments Finished {A} a.
Arguments ProcessExit {A} code.
Arguments UndefinedConversion {A}.
Arguments StillRunning {A}.

Definition K (A : Type) : Type := kernel -> kernel * ending A.

Definition retK {A} (a : A) : K A := fun k => (k, Finished a).

Definition bindK {A B} (m : K A) (f : A -> K B) : K B :=
  fun k =>
    match m k with
    | (k', Finished a) => f a k'
    | (k', ProcessExit code) => (k', ProcessExit code)
    | (k', UndefinedConversion) => (k', UndefinedConversion)
    | (k', StillRunning) => (k', StillRunning)
    end.

Definition exitK {A} (code : Z) : K A := fun k => (k, ProcessExit code).

(** A system call: logged, answered by the kernel. *)
Definition syscall (c : call) : K Z :=
  fun k =>
    ({| answer := answer k;
        next := S (next k);
        calls := calls k ++ [c];
        webroot_set := webroot_set k |},
     Finished (answer k (next k))).

(** A call into the thread pool: logged. *)
Definition poolcall (c : call) : K unit :=
  fun k =>
    ({| answer := answer k;
        next := next k;
        calls := calls k ++ [c];
        webroot_set := webroot_set k |},
     Finished tt).

(** [webroot = argv[2]]: the store is logged where it happens. *)
Definition set_webroot (root : cstring) : K unit :=
  fun k =>
    ({| answer := answer k;
        next := next k;
        calls := calls k ++ [store_webroot root];
        webroot_set := Some root |},
     Finished tt).

(** [htons(portno)]: the [int] is converted to 16 bits; the port bound is
    the number those bits denote. *)
Definition htons_port (portno : Z) : Z := (portno mod 65536)%Z.

(** [setup_listening_socket] *)
Definition setup_listening_socket (portno max_clients : Z) : K Z :=
  bindK (syscall call_socket) (fun sock =>
  if (sock =? ERROR)%Z then exitK EXIT_FAILURE else
  bindK (syscall (call_setsockopt sock)) (fun set =>
  if (set =? ERROR)%Z then exitK EXIT_FAILURE else
  bindK (syscall (call_bind sock (htons_port portno))) (fun bound =>
  if (bound =? ERROR)%Z then exitK EXIT_FAILURE else
  bindK (syscall (call_listen sock max_clients)) (fun listening =>
  if (listening =? ERROR)%Z then exitK EXIT_FAILURE else
  retK sock)))).

(** The loop of [main], observed for [rounds] iterations: it has no exit
    of its own. *)
Fixpoint accept_loop (sockfd : Z) (rounds : nat) : K unit :=
  match rounds with
  | O => fun k => (k, StillRunning)
  | S rounds' =>
      bindK (syscall (call_accept sockfd)) (fun client =>
      if (client =? ERROR)%Z then accept_loop sockfd rounds'
      else bindK (poolcall (call_add_client_work client)) (fun _ =>
           accept_loop sockfd rounds'))
  end.

(** [atoi]: blanks, a sign, then digits up to the first other byte. *)
Definition isspace (c : ascii) : bool :=
  let n := nat_of_ascii c in
  (n =? 32)%nat || ((9 <=? n)%nat && (n <=? 13)%nat).

Fixpoint skip_spaces (s : cstring) : cstring :=
  match s with
  | c :: rest => if isspace c then skip_spaces rest else s
  | [] => []
  end.

Fixpoint digits_value (acc : Z) (s : cstring) : Z :=
  match s with
  | c :: rest =>
      match digit_value c with
      | Some d => digits_value (acc * 10 + d)%Z rest
      | None => acc
      end
  | [] => acc
  end.

Definition INT_MAX : Z := (2 ^ 31 - 1)%Z.
Definition INT_MIN : Z := (- 2 ^ 31)%Z.

Definition atoi (s : cstring) : option Z :=
  let s1 := skip_spaces s in
  let value :=
    match s1 with
    | c :: rest =>
        if Ascii.eqb c "-"%char then (- digits_value 0 rest)%Z
        else if Ascii.eqb c "+"%char then digits_value 0 rest
        else digits_value 0 s1
    | [] => 0%Z
    end in
  if ((INT_MIN <=? value) && (value <=? INT_MAX))%Z then Some value
  else None.

(** [main]; [BACKLOG] is a constant of [server.h], [rounds] the number of
    iterations of the accept loop that are observed. *)
Definition main (BACKLOG : Z) (argv : list cstring) (rounds : nat) : K unit :=
  match argv with
  | [_; port; root] =>
      match atoi port with
      | None => fun k => (k, UndefinedConversion)
      | Some portno =>
          bindK (set_webroot root) (fun _ =>
          bindK (poolcall call_initialise_threadpool) (fun _ =>
          bindK (setup_listening_socket portno BACKLOG) (fun sockfd =>
          accept_loop sockfd rounds)))
      end
  | _ => exitK EXIT_FAILURE
  end.

(** The calls of the accept loop for a run of answers of [accept]. *)
Fixpoint accept_calls (sockfd : Z) (answers : list Z) : list call :=
  match answers with
  | [] => []
  | a :: rest =>
      call_accept sockfd
      :: (if (a =? ERROR)%Z then [] else [call_add_client_work a])
      ++ accept_calls sockfd rest
  end.

(** The [n] answers of the kernel from the [from]-th on. *)
Definition answers_from (k : kernel) (from n : nat) : list Z :=
  map (answer k) (seq from n).

(** The first of a run of answers that is [ERROR]. *)
Fixpoint first_error (answers : list Z) : option nat :=
  match answers with
  | [] => None
  | a :: rest =>
      if (a =? ERROR)%Z then Some 0
      else option_map S (first_error rest)
  end.

(** The four calls of [setup_listening_socket] on the socket [sock]. *)
Definition setup_calls (sock portno backlog : Z) : list call :=
  [call_socket; call_setsockopt sock;
   call_bind sock (portno mod 65536)%Z; call_listen sock backlog].

(** The kernel after [n] more system calls and the calls [made]. *)
Definition advance (k : kernel) (n : nat) (made : list call) : kernel :=
  {| answer := answer k;
     next := n + next k;
     calls := calls k ++ made;
     webroot_set := webroot_set k |}.

(** The clients handed to the thread pool. *)
Fixpoint dispatched (l : list call) : list Z :=
  match l with
  | [] => []
  | call_add_client_work client :: rest => client :: dispatched rest
  | _ :: rest => dispatched rest
  end.
End Listener.

Import Listener.

(* ================================================================= *)
(** ** More servers and clients *)

Module MoreExamples.

(** A web root whose log page grew between the size probe and the read:
    [ftell] announced 5 bytes, 11 can be read. *)
Definition growing : filesystem :=
  fun path =>
    if strcmp_is_zero path (cs "/srv/www/log.html")
    then Some {| readable := true;
                 ftell_size := 5;
                 stored := cs "hello world" |}
    else None.

Definition growing_server : environment :=
  {| webroot := cs "/srv/www";
     BUFFER_SIZE := 1024;
     files := growing;
     stack := [];
     heap_limit := 1073741824%positive |}.

(** A kernel that gives descriptor 3 to [socket], lets [setsockopt],
    [bind] and [listen] succeed, then accepts client 4, fails one
    [accept], and accepts client 5 ever after. *)
Definition friendly : kernel :=
  {| answer := fun n =>
       match n with
       | 0 => 3%Z
       | 1 | 2 | 3 => 0%Z
       | 4 => 4%Z
       | 5 => ERROR
       | _ => 5%Z
       end;
     next := 0;
     calls := [];
     webroot_set := None |}.




End MoreExamples.
(* ================================================================= *)
(** ** Facts about the C string functions *)

Section CStrFacts.

Lemma free_of_cons set c s :
  free_of set (c :: s) = true ->
  is_nul c = false /\ mem_char c set = false /\ free_of set s = true.
Proof.
  unfold free_of; simpl.
  rewrite !andb_true_iff, !negb_true_iff. tauto.
Qed.

Lemma free_of_app set a b :
  free_of set (a ++ b) = free_of set a && free_of set b.
Proof. unfold free_of. apply forallb_app. Qed.

Lemma free_of_weaken set s : free_of set s = true -> free_of [] s = true.
Proof.
  induction s as [|c s IH]; [reflexivity|].
  intros H. apply free_of_cons in H as (Hn & _ & Hs).
  unfold free_of in *; simpl. rewrite Hn. simpl. auto.
Qed.

Lemma c_str_app_free set a rest :
  free_of set a = true -> c_str (a ++ rest) = a ++ c_str rest.
Proof.
  induction a as [|c a IH]; simpl; [reflexivity|].
  intros H. apply free_of_cons in H as (Hn & _ & Ha).
  rewrite Hn, IH by assumption. reflexivity.
Qed.

Lemma c_str_free_nul set a rest :
  free_of set a = true -> c_str (a ++ NUL :: rest) = a.
Proof.
  intros H. rewrite (c_str_app_free _ _ _ H). simpl. apply app_nil_r.
Qed.

Lemma strcspn_stop set a d rest :
  free_of set a = true -> mem_char d set = true ->
  strcspn (a ++ d :: rest) set = List.length a.
Proof.
  induction a as [|c a IH]; simpl; intros H Hd.
  - rewrite Hd. reflexivity.
  - apply free_of_cons in H as (_ & Hc & Ha).
    rewrite Hc, IH by assumption. reflexivity.
Qed.

Lemma load_middle (a : memory) x b : load (a ++ x :: b) (List.length a) = x.
Proof. unfold load. apply nth_middle. Qed.

Lemma store_middle (a : memory) x b c :
  store (a ++ x :: b) (List.length a) c = a ++ c :: b.
Proof. induction a as [|y a IH]; simpl; [reflexivity|]. now rewrite IH. Qed.

Lemma cstr_at_middle (a b : memory) :
  cstr_at (a ++ b) (List.length a) = c_str b.
Proof.
  unfold cstr_at. induction a as [|y a IH]; simpl; [reflexivity|]. exact IH.
Qed.

(** One call of [strtok_r] that starts on a token followed by a delimiter:
    the delimiter becomes a terminator and the scan resumes after it. *)
Lemma strtok_r_token pre tok d post delim s saveptr :
  match s with Some p => p | None => saveptr end = List.length pre ->
  tok <> [] ->
  free_of delim tok = true ->
  mem_char d delim = true ->
  is_nul d = false ->
  strtok_r (pre ++ tok ++ d :: post) s delim saveptr
  = (pre ++ tok ++ NUL :: post,
     Some (List.length pre),
     S (List.length pre + List.length tok)).
Proof.
  intros Hs Hne Hfree Hd Hdn.
  unfold strtok_r. rewrite Hs. clear Hs.
  destruct tok as [|t tok]; [contradiction|].
  pose proof (free_of_cons _ _ _ Hfree) as (Htn & Htd & _).
  change (pre ++ (t :: tok) ++ d :: post)
    with (pre ++ t :: (tok ++ d :: post)).
  rewrite load_middle, Htn.
  rewrite cstr_at_middle.
  assert (Hspan : strspn (c_str (t :: tok ++ d :: post)) delim = 0).
  { simpl. rewrite Htn. simpl. now rewrite Htd. }
  rewrite Hspan, Nat.add_0_r, load_middle, Htn, cstr_at_middle.
  change (t :: tok ++ d :: post) with ((t :: tok) ++ d :: post).
  rewrite (c_str_app_free _ _ _ Hfree).
  assert (Hcd : c_str (d :: post) = d :: c_str post)
    by (simpl; now rewrite Hdn).
  rewrite Hcd, (strcspn_stop _ _ _ _ Hfree Hd).
  replace (pre ++ (t :: tok) ++ d :: post)
    with ((pre ++ t :: tok) ++ d :: post)
    by (now rewrite <- app_assoc).
  rewrite <- length_app, load_middle, Hdn, store_middle.
  now rewrite <- app_assoc.
Qed.

Lemma strcmp_refl a : strcmp a a = Eq.
Proof.
  induction a as [|x a IH]; simpl; [reflexivity|].
  now rewrite Nat.compare_refl.
Qed.

Lemma strcmp_eq a : forall b, strcmp a b = Eq -> a = b.
Proof.
  induction a as [|x a IH]; intros [|y b]; simpl; try discriminate;
    [reflexivity|].
  destruct (Nat.compare (nat_of_ascii x) (nat_of_ascii y)) eqn:E;
    try discriminate.
  intros H. apply Nat.compare_eq in E.
  f_equal; [|now apply IH].
  rewrite <- (ascii_nat_embedding x), <- (ascii_nat_embedding y).
  now rewrite E.
Qed.

Lemma strcmp_is_zero_iff a b : strcmp_is_zero a b = true <-> a = b.
Proof.
  unfold strcmp_is_zero. split.
  - destruct (strcmp a b) eqn:E; try discriminate. intros _.
    now apply strcmp_eq.
  - intros ->. now rewrite strcmp_refl.
Qed.

(** [strrchr] finds the last occurrence: the suffix it returns starts with
    the byte and holds no other occurrence. *)
Lemma strrchr_last p c e :
  forallb (fun x => negb (Ascii.eqb x c)) e = true ->
  strrchr (p ++ c :: e) c = Some (c :: e).
Proof.
  intros He.
  assert (Hnone : strrchr e c = None).
  { induction e as [|x e IH]; simpl in *; [reflexivity|].
    apply andb_true_iff in He as [Hx He].
    rewrite (IH He). apply negb_true_iff in Hx. now rewrite Hx. }
  induction p as [|y p IH]; simpl.
  - rewrite Hnone. now rewrite Ascii.eqb_refl.
  - now rewrite IH.
Qed.

End CStrFacts.

(* ================================================================= *)
(** ** [parse_request] on a request line *)

Section ParseRequest.

Lemma free_of_sub set set' s :
  (forall c, mem_char c set' = true -> mem_char c set = true) ->
  free_of set s = true -> free_of set' s = true.
Proof.
  intros Hsub. induction s as [|c s IH]; [reflexivity|].
  intros H. apply free_of_cons in H as (Hn & Hc & Hs).
  unfold free_of in *; simpl. rewrite Hn, (IH Hs). simpl.
  destruct (mem_char c set') eqn:E; [|reflexivity].
  apply Hsub in E. congruence.
Qed.

Lemma mem_char_LF_SPLF c :
  mem_char c [LF] = true -> mem_char c [SP; LF] = true.
Proof. simpl. rewrite !orb_false_r. intros ->. apply orb_true_r. Qed.

Lemma mem_char_SP_SPLF c :
  mem_char c [SP] = true -> mem_char c [SP; LF] = true.
Proof. simpl. rewrite !orb_false_r. intros ->. reflexivity. Qed.

Lemma cstr_at_0 mem : cstr_at mem 0 = c_str mem.
Proof. reflexivity. Qed.

Lemma cstr_at_after (a : memory) x b :
  cstr_at (a ++ x :: b) (S (List.length a)) = c_str b.
Proof.
  replace (a ++ x :: b) with ((a ++ [x]) ++ b) by (now rewrite <- app_assoc).
  replace (S (List.length a)) with (List.length (a ++ [x]))
    by (rewrite length_app; simpl; lia).
  apply cstr_at_middle.
Qed.

Lemma cstr_at_after2 (a : memory) x b y c :
  cstr_at (a ++ x :: b ++ y :: c) (S (S (List.length a + List.length b)))
  = c_str c.
Proof.
  replace (a ++ x :: b ++ y :: c) with ((a ++ x :: b) ++ y :: c)
    by (now rewrite <- app_assoc).
  replace (S (List.length a + List.length b))
    with (List.length (a ++ x :: b))
    by (rewrite length_app; simpl; lia).
  apply cstr_at_after.
Qed.

(** A first line [m SP u SP v x LF]: the three calls of [strtok_r] cut it
    after [m] and after [u]; what follows [u]'s delimiter, less its last
    byte [x], is the version. *)
Lemma parse_request_line m u v x tail :
  m <> [] -> u <> [] ->
  free_of [SP; LF] m = true ->
  free_of [SP; LF] u = true ->
  free_of [LF] (v ++ [x]) = true ->
  parse_request (m ++ SP :: u ++ SP :: v ++ x :: LF :: tail)
  = Returned {| method := m; URI := u; httpversion := v |}.
Proof.
  intros Hm Hu Fm Fu Fv.
  pose proof (free_of_sub _ _ _ mem_char_LF_SPLF Fm) as Fm1.
  pose proof (free_of_sub _ _ _ mem_char_LF_SPLF Fu) as Fu1.
  pose proof (free_of_sub _ _ _ mem_char_SP_SPLF Fm) as Fm2.
  pose proof (free_of_sub _ _ _ mem_char_SP_SPLF Fu) as Fu2.
  assert (Fline : free_of [LF] (m ++ SP :: u ++ SP :: v ++ [x]) = true).
  { rewrite free_of_app, Fm1. simpl.
    change (SP :: u ++ SP :: v ++ [x]) with ([SP] ++ u ++ [SP] ++ v ++ [x]).
    rewrite !free_of_app, Fu1. exact Fv. }
  assert (Hline : m ++ SP :: u ++ SP :: v ++ [x] <> []).
  { destruct m; [contradiction|discriminate]. }
  pose proof (strtok_r_token [] _ LF (tail ++ [NUL]) [LF] (Some 0) 0
                eq_refl Hline Fline eq_refl eq_refl) as E1.
  pose proof (fun sp => strtok_r_token [] m SP
                (u ++ SP :: v ++ x :: NUL :: tail ++ [NUL]) [SP] (Some 0) sp
                eq_refl Hm Fm2 eq_refl eq_refl) as E2.
  pose proof (strtok_r_token (m ++ [NUL]) u SP
                (v ++ x :: NUL :: tail ++ [NUL]) [SP] None
                (S (List.length m))) as E3.
  rewrite length_app, Nat.add_1_r in E3.
  specialize (E3 eq_refl Hu Fu2 eq_refl eq_refl).
  flat_in E1. flat_in E3. simpl in E2.
  unfold parse_request, strdup. flat.
  rewrite E1, E2, E3.
  rewrite cstr_at_0, cstr_at_after, cstr_at_after2.
  rewrite (c_str_free_nul _ _ _ Fm2), (c_str_free_nul _ _ _ Fu2).
  replace (v ++ x :: NUL :: tail ++ [NUL])
    with ((v ++ [x]) ++ NUL :: tail ++ [NUL]) by (now rewrite <- app_assoc).
  rewrite (c_str_free_nul _ _ _ Fv).
  unfold strlen, strdup. rewrite length_app, Nat.add_1_r, <- app_assoc.
  simpl. rewrite store_middle.
  rewrite free_of_app in Fv. apply andb_true_iff in Fv as [Fv _].
  now rewrite (c_str_free_nul _ _ _ Fv).
Qed.

End ParseRequest.

(* ================================================================= *)
(** ** The version field of a parsed request *)

Section Version.

Lemma first_line_stop a rest :
  free_of [LF] a = true -> first_line (a ++ LF :: rest) = a.
Proof.
  induction a as [|c a IH]; intros H; [reflexivity|].
  apply free_of_cons in H as (_ & Hc & Ha).
  simpl in Hc. rewrite orb_false_r in Hc. simpl.
  rewrite Hc, IH by assumption. reflexivity.
Qed.

Lemma split_ws_token t : forall rest cur,
  blank_free t = true ->
  split_ws (t ++ rest) cur = split_ws rest (rev t ++ cur).
Proof.
  induction t as [|c t IH]; intros rest cur H; simpl; [reflexivity|].
  simpl in H. apply andb_true_iff in H as [Hc Ht].
  apply negb_true_iff in Hc. rewrite Hc, IH by assumption.
  now rewrite <- app_assoc.
Qed.

Lemma split_ws_blank t rest :
  t <> [] -> blank_free t = true ->
  split_ws (t ++ SP :: rest) [] = t :: split_ws rest [].
Proof.
  intros Hne H. rewrite split_ws_token by assumption.
  rewrite app_nil_r. simpl.
  destruct (rev t) eqn:E.
  - apply (f_equal (@rev ascii)) in E. rewrite rev_involutive in E.
    contradiction.
  - rewrite <- E, rev_involutive. reflexivity.
Qed.

Lemma split_ws_end t :
  t <> [] -> blank_free t = true -> split_ws t [] = [t].
Proof.
  intros Hne H. rewrite <- (app_nil_r t) at 1.
  rewrite split_ws_token by assumption. rewrite app_nil_r. simpl.
  destruct (rev t) eqn:E.
  - apply (f_equal (@rev ascii)) in E. rewrite rev_involutive in E.
    contradiction.
  - rewrite <- E, rev_involutive. reflexivity.
Qed.

Lemma trim_terminator_CR v : trim_terminator (v ++ [CR]) = v.
Proof.
  induction v as [|c v IH]; [reflexivity|].
  change ((c :: v) ++ [CR]) with (c :: (v ++ [CR])).
  destruct (v ++ [CR]) eqn:E.
  - destruct v; discriminate.
  - change (trim_terminator (c :: a :: l))
      with (c :: trim_terminator (a :: l)).
    now rewrite IH.
Qed.

Lemma mem_char_incl (set set' : cstring) c :
  (forall x, In x set' -> In x set) ->
  mem_char c set' = true -> mem_char c set = true.
Proof.
  unfold mem_char. intros Hincl H.
  apply existsb_exists in H as (x & Hx & E).
  apply existsb_exists. exists x. auto.
Qed.

Lemma is_token_facts t :
  is_token t = true ->
  t <> [] /\ free_of [SP; LF] t = true /\ free_of [LF] t = true
  /\ blank_free t = true.
Proof.
  intros H. split; [destruct t; [discriminate|discriminate]|].
  assert (F : free_of [SP; TAB; CR; LF] t = true)
    by (destruct t; [discriminate|exact H]).
  clear H. repeat split.
  - revert F. apply free_of_sub. intros c. apply mem_char_incl.
    simpl. intuition.
  - revert F. apply free_of_sub. intros c. apply mem_char_incl.
    simpl. intuition.
  - induction t as [|c t IH]; [reflexivity|].
    apply free_of_cons in F as (_ & Hc & Ht). simpl.
    rewrite (IH Ht), andb_true_r. unfold is_space.
    unfold mem_char in Hc. simpl in Hc.
    destruct (Ascii.eqb c SP), (Ascii.eqb c TAB); simpl in *;
      try discriminate; reflexivity.
Qed.

End Version.

(** C8, as the code has it.  On a request line
    [<method> SP <uri> SP <version> CR LF] whose three parts are tokens,
    [parse_request] returns, and the version field is [<version>]: the
    third whitespace-separated token of the first line, its line terminator
    trimmed. *)
Theorem parse_request_version_on_request_line m u v tail :
  is_token m = true -> is_token u = true -> is_token v = true ->
  parse_request (m ++ SP :: u ++ SP :: v ++ CR :: LF :: tail)
  = Returned {| method := m; URI := u; httpversion := v |}
  /\ third_token_trimmed (m ++ SP :: u ++ SP :: v ++ CR :: LF :: tail)
     = Some v.
Proof.
  intros Hm Hu Hv.
  apply is_token_facts in Hm as (Nm & Fm & Lm & Bm).
  apply is_token_facts in Hu as (Nu & Fu & Lu & Bu).
  apply is_token_facts in Hv as (Nv & Fv & Lv & Bv).
  split.
  - apply parse_request_line; auto.
    rewrite free_of_app, Lv. reflexivity.
  - unfold third_token_trimmed, tokens.
    replace (m ++ SP :: u ++ SP :: v ++ CR :: LF :: tail)
      with ((m ++ SP :: u ++ SP :: v ++ [CR]) ++ LF :: tail)
      by (repeat (rewrite <- app_assoc; simpl); reflexivity).
    rewrite first_line_stop.
    + rewrite (split_ws_blank m _ Nm Bm), (split_ws_blank u _ Nu Bu).
      rewrite split_ws_end.
      * simpl. now rewrite trim_terminator_CR.
      * destruct v; discriminate.
      * unfold blank_free in *. rewrite forallb_app, Bv. reflexivity.
    + rewrite free_of_app, Lm.
      change (SP :: u ++ SP :: v ++ [CR])
        with ([SP] ++ u ++ [SP] ++ v ++ [CR]).
      rewrite !free_of_app, Lu, Lv. reflexivity.
Qed.

Lemma parse_request_version_witness :
  parse_request (cs "GET" ++ SP :: cs "/index.html" ++ SP :: cs "HTTP/1.1"
                 ++ CR :: LF :: cs "Host: localhost")
  = Returned {| method := cs "GET";
                URI := cs "/index.html";
                httpversion := cs "HTTP/1.1" |}
  /\ third_token_trimmed
       (cs "GET" ++ SP :: cs "/index.html" ++ SP :: cs "HTTP/1.1"
        ++ CR :: LF :: cs "Host: localhost")
     = Some (cs "HTTP/1.1").
Proof.
  exact (parse_request_version_on_request_line
           (cs "GET") (cs "/index.html") (cs "HTTP/1.1")
           (cs "Host: localhost") eq_refl eq_refl eq_refl).
Defined.

(** C8 as stated fails.  With two blanks before the version the first line
    still has exactly three tokens, the third being [HTTP/1.1]; the version
    field keeps the second blank, because [parse_request] copies what
    follows the URI's delimiter instead of reading a third token. *)
Lemma parse_request_version_keeps_blank :
  exists r,
    parse_request (cs "GET /a  HTTP/1.1" ++ CRLF) = Returned r
    /\ third_token_trimmed (cs "GET /a  HTTP/1.1" ++ CRLF)
       = Some (cs "HTTP/1.1")
    /\ httpversion r = cs " HTTP/1.1"
    /\ Some (httpversion r)
       <> third_token_trimmed (cs "GET /a  HTTP/1.1" ++ CRLF).
Proof.
  eexists. split; [vm_compute; reflexivity|].
  split; [vm_compute; reflexivity|].
  split; [vm_compute; reflexivity|].
  vm_compute. discriminate.
Qed.

(* ================================================================= *)
(** ** Resolving a path *)

Section Resolve.

Lemma supported_loop_iff entries ext :
  supported_loop entries ext = true <-> In ext (map extension entries).
Proof.
  induction entries as [|entry rest IH]; simpl.
  - split; [discriminate|contradiction].
  - destruct (strcmp_is_zero (extension entry) ext) eqn:E.
    + apply strcmp_is_zero_iff in E. tauto.
    + rewrite IH. split; [tauto|].
      intros [H|H]; [|exact H].
      apply strcmp_is_zero_iff in H. congruence.
Qed.

Lemma supported_file_iff ext :
  supported_file ext = true <-> In ext supported_extensions.
Proof. apply supported_loop_iff. Qed.

Lemma get_full_path_status fs webroot uri :
  snd (get_full_path fs webroot uri) = FOUND <->
  exists ext,
    strrchr (webroot ++ uri) DOT = Some ext /\
    access_F_OK fs (webroot ++ uri) = true /\
    In ext supported_extensions.
Proof.
  unfold get_full_path. simpl.
  destruct (strrchr (webroot ++ uri) DOT) as [e|].
  - destruct (access_F_OK fs (webroot ++ uri)) eqn:A;
      destruct (supported_file e) eqn:S; simpl.
    + apply supported_file_iff in S. split; [|reflexivity].
      intros _. exists e. auto.
    + split; [discriminate|]. intros (ext & Hext & _ & Hin).
      injection Hext as <-. apply supported_file_iff in Hin. congruence.
    + split; [discriminate|]. intros (ext & _ & Hacc & _). discriminate.
    + split; [discriminate|]. intros (ext & _ & Hacc & _). discriminate.
  - split; [discriminate|]. intros (ext & Hext & _). discriminate.
Qed.

End Resolve.

(** C4, as the code has it.  [get_full_path] always returns the
    concatenation of web root and URI; its status is [FOUND] exactly when
    the path has an extension (the suffix that starts at its last dot), the
    path exists ([access] with [F_OK]: existence, not permission to read),
    and the extension is one of [.html], [.jpg], [.css], [.js]; in every
    other case it is [NOT_FOUND]. *)
Theorem get_full_path_found_iff_exists_and_supported fs webroot uri :
  fst (get_full_path fs webroot uri) = webroot ++ uri
  /\ (snd (get_full_path fs webroot uri) = FOUND <->
      exists ext,
        strrchr (webroot ++ uri) DOT = Some ext /\
        access_F_OK fs (webroot ++ uri) = true /\
        In ext [cs ".html"; cs ".jpg"; cs ".css"; cs ".js"])
  /\ (snd (get_full_path fs webroot uri) = NOT_FOUND <->
      ~ exists ext,
        strrchr (webroot ++ uri) DOT = Some ext /\
        access_F_OK fs (webroot ++ uri) = true /\
        In ext [cs ".html"; cs ".jpg"; cs ".css"; cs ".js"]).
Proof.
  split; [reflexivity|].
  pose proof (get_full_path_status fs webroot uri) as H.
  change supported_extensions
    with [cs ".html"; cs ".jpg"; cs ".css"; cs ".js"] in H.
  split; [exact H|].
  rewrite <- H.
  destruct (snd (get_full_path fs webroot uri)); split;
    try discriminate; try congruence; auto.
Qed.

(** C4 as stated fails.  A page that exists but that the server may not
    read has the verdict [FOUND], although the path is not readable. *)
Lemma get_full_path_found_but_unreadable :
  snd (get_full_path Examples.www (cs "/srv/www") (cs "/secret.html"))
  = FOUND
  /\ path_readable Examples.www (cs "/srv/www" ++ cs "/secret.html") = false
  /\ ~ (snd (get_full_path Examples.www (cs "/srv/www") (cs "/secret.html"))
        = FOUND
        <-> found_condition Examples.www (cs "/srv/www") (cs "/secret.html")).
Proof.
  split; [vm_compute; reflexivity|].
  split; [vm_compute; reflexivity|].
  intros [H _].
  destruct (H ltac:(vm_compute; reflexivity)) as (ext & _ & R & _).
  vm_compute in R. discriminate.
Qed.

(* ================================================================= *)
(** ** Numbers: [get_length_bytes] and [%zu] *)

Section Numbers.

Local Open Scope Z_scope.

Lemma get_length_loop_total fuel : forall temp count,
  0 <= temp < 2 ^ Z.of_nat fuel ->
  exists k, get_length_loop (S fuel) temp count = Some k.
Proof.
  induction fuel as [|fuel IH]; intros temp count H.
  - simpl in *. replace temp with 0 by lia. simpl. eauto.
  - cbn [get_length_loop]. destruct (temp =? 0) eqn:E; [eauto|].
    apply IH. rewrite Nat2Z.inj_succ, Z.pow_succ_r in H by lia.
    split; [apply Z.div_pos; lia|].
    apply Z.div_lt_upper_bound; lia.
Qed.

Lemma get_length_loop_bounds fuel : forall temp count k,
  get_length_loop fuel temp count = Some k ->
  0 <= count -> count + Z.of_nat fuel < SIZE_MOD ->
  count <= k <= count + Z.of_nat fuel.
Proof.
  induction fuel as [|fuel IH]; intros temp count k H Hc Hb;
    [discriminate|].
  cbn [get_length_loop] in H. destruct (temp =? 0).
  - injection H as <-. lia.
  - apply IH in H.
    + unfold to_size_t in H. rewrite Z.mod_small in H by lia. lia.
    + unfold to_size_t. rewrite Z.mod_small by lia. lia.
    + unfold to_size_t. rewrite Z.mod_small by lia. lia.
Qed.

Lemma get_length_bytes_total bytes :
  0 <= bytes < SIZE_MOD ->
  exists k, get_length_bytes bytes = Some k /\ 0 <= k <= 65.
Proof.
  intros H. destruct (get_length_loop_total 64 bytes 0 H) as [k Hk].
  exists k. split; [exact Hk|].
  apply get_length_loop_bounds in Hk; [|lia|reflexivity].
  unfold size_t_bits in *. lia.
Qed.

Lemma zu_digits_length fuel : forall (k : nat) n acc,
  (1 <= k)%nat -> 0 <= n < 10 ^ Z.of_nat k ->
  (List.length (zu_digits fuel n acc) <= k + List.length acc)%nat.
Proof.
  induction fuel as [|fuel IH]; intros k n acc Hk Hn; simpl; [lia|].
  destruct (n / 10 =? 0) eqn:E; [simpl; lia|].
  apply Z.eqb_neq in E.
  destruct k as [|k]; [lia|].
  rewrite Nat2Z.inj_succ, Z.pow_succ_r in Hn by lia.
  assert (Hq : 0 <= n / 10 < 10 ^ Z.of_nat k).
  { split; [apply Z.div_pos; lia|apply Z.div_lt_upper_bound; lia]. }
  destruct k as [|k].
  - simpl in Hq. lia.
  - specialize (IH (S k) (n / 10) (digit_char (n mod 10) :: acc)
                  ltac:(lia) Hq).
    simpl in IH. lia.
Qed.

Lemma format_zu_length n :
  0 <= n < SIZE_MOD -> (List.length (format_zu n) <= 20)%nat.
Proof.
  intros H. unfold format_zu.
  assert (B : SIZE_MOD <= 10 ^ Z.of_nat 20) by (vm_compute; discriminate).
  pose proof (zu_digits_length (S size_t_bits) 20 n []) as L.
  change (List.length (@nil ascii)) with 0%nat in L.
  rewrite Nat.add_0_r in L. apply L.
  - apply Nat.leb_le. reflexivity.
  - generalize dependent (10 ^ Z.of_nat 20). intros. lia.
Qed.

Lemma zu_digits_not_nil fuel : forall n acc,
  acc <> [] -> zu_digits fuel n acc <> [].
Proof.
  induction fuel as [|fuel IH]; intros n acc H; simpl; [exact H|].
  destruct (n / 10 =? 0); [discriminate|]. apply IH. discriminate.
Qed.

Lemma zu_digits_S_not_nil fuel n acc : zu_digits (S fuel) n acc <> [].
Proof.
  cbn [zu_digits]. destruct (n / 10 =? 0); [discriminate|].
  apply zu_digits_not_nil. discriminate.
Qed.

Lemma format_zu_not_nil n : format_zu n <> [].
Proof. apply zu_digits_S_not_nil. Qed.

Lemma digit_value_digit_char d :
  0 <= d <= 9 -> digit_value (digit_char d) = Some d.
Proof.
  intros H.
  assert (C : d = 0 \/ d = 1 \/ d = 2 \/ d = 3 \/ d = 4 \/ d = 5 \/ d = 6
              \/ d = 7 \/ d = 8 \/ d = 9) by lia.
  repeat (destruct C as [-> | C]; [reflexivity|]). now subst.
Qed.

Lemma decimal_from_zu_digits fuel : forall n acc,
  0 <= n < 2 ^ Z.of_nat fuel ->
  decimal_from 0 (zu_digits fuel n acc) = decimal_from n acc.
Proof.
  induction fuel as [|fuel IH]; intros n acc H.
  - simpl in *. now replace n with 0 by lia.
  - cbn [zu_digits].
    pose proof (Z.mod_pos_bound n 10 ltac:(lia)) as Hd.
    pose proof (Z.div_mod n 10 ltac:(lia)) as Hn.
    destruct (n / 10 =? 0) eqn:E.
    + apply Z.eqb_eq in E. cbn [decimal_from].
      rewrite digit_value_digit_char by lia. f_equal. lia.
    + rewrite IH.
      * cbn [decimal_from]. rewrite digit_value_digit_char by lia.
        f_equal. lia.
      * rewrite Nat2Z.inj_succ, Z.pow_succ_r in H by lia.
        split; [apply Z.div_pos; lia|apply Z.div_lt_upper_bound; lia].
Qed.

(** The digits [%zu] prints denote the number printed. *)
Lemma decimal_value_format_zu n :
  0 <= n < SIZE_MOD -> decimal_value (format_zu n) = Some n.
Proof.
  intros H. unfold decimal_value.
  pose proof (format_zu_not_nil n) as Hne.
  destruct (format_zu n) eqn:E; [contradiction|].
  rewrite <- E. unfold format_zu.
  rewrite decimal_from_zu_digits; [reflexivity|].
  unfold SIZE_MOD, size_t_bits in *.
  rewrite Nat2Z.inj_succ, Z.pow_succ_r by lia.
  change (Z.of_nat 64) with 64. lia.
Qed.

(** The buffer [write_content_length] allocates holds every digit. *)
Lemma snprintf_zu_fits n k :
  0 <= n < SIZE_MOD -> 0 <= k <= 65 ->
  snprintf_zu
    (to_size_t (to_size_t (Z.of_nat (strlen length_header) + k) + 1)) n
  = format_zu n.
Proof.
  intros Hn Hk. unfold snprintf_zu.
  change (Z.of_nat (strlen length_header)) with 22.
  unfold to_size_t, SIZE_MOD.
  rewrite (Z.mod_small (22 + k)) by lia.
  rewrite Z.mod_small by lia.
  apply firstn_all2.
  pose proof (format_zu_length n Hn). lia.
Qed.

End Numbers.

(* ================================================================= *)
(** ** Running the handler on a socket that takes every byte *)

Section Runs.

Local Open Scope sys_scope.

Lemma after_after c l1 l2 : after (after c l1) l2 = after c (l1 ++ l2).
Proof. unfold after. simpl. now rewrite app_assoc. Qed.

Lemma write_complete buf c :
  pending c = [] ->
  write buf c = (after c [Wrote buf], Returned (Z.of_nat (List.length buf))).
Proof. intros H. unfold write. rewrite H. reflexivity. Qed.

Lemma not_ERROR (n : nat) : (Z.of_nat n =? ERROR)%Z = false.
Proof. apply Z.eqb_neq. unfold ERROR. lia. Qed.

Lemma write_headers_complete data format c :
  pending c = [] ->
  write_headers data format c
  = (after c [Wrote (sprintf format data)], Returned tt).
Proof.
  intros H. unfold write_headers, bind.
  rewrite (write_complete _ _ H), not_ERROR. reflexivity.
Qed.

Lemma sprintf_found v : sprintf found v = status_line v (cs "200 OK").
Proof. reflexivity. Qed.

Lemma sprintf_not_found v :
  sprintf not_found v = status_line v (cs "404 Not Found").
Proof. reflexivity. Qed.

Lemma sprintf_content_header mime :
  sprintf content_header mime = header_line (cs "Content-Type") mime.
Proof. reflexivity. Qed.

Lemma sprintf_length_header digits :
  sprintf length_header digits
  = header_line (cs "Content-Length") digits ++ CRLF.
Proof. unfold header_line. rewrite <- !app_assoc. reflexivity. Qed.

Lemma content_type_loop_find entries ext c :
  content_type_loop entries ext c
  = match find (fun entry => strcmp_is_zero (extension entry) ext) entries
    with
    | Some entry =>
        (write_headers (mime_type entry) content_header ;; ret true) c
    | None => (c, Returned false)
    end.
Proof.
  induction entries as [|entry rest IH]; simpl; [reflexivity|].
  destruct (strcmp_is_zero (extension entry) ext); [reflexivity|exact IH].
Qed.

(** The status line and the Content-Type line: two writes. *)
Lemma construct_file_response_complete version path status c :
  pending c = [] ->
  construct_file_response version path status c
  = (after c [Wrote (sprintf status version);
              Wrote (header_line (cs "Content-Type") (content_type_of path))],
     Returned tt).
Proof.
  intros H. unfold construct_file_response, content_type_of, lookup_mime.
  unfold bind at 1. rewrite (write_headers_complete _ _ _ H).
  set (c1 := after c [Wrote (sprintf status version)]).
  assert (H1 : pending c1 = []) by exact H.
  replace (after c [Wrote (sprintf status version);
                    Wrote (header_line (cs "Content-Type")
                             match strrchr path DOT with
                             | Some ext =>
                                 match option_map mime_type
                                         (find (fun entry =>
                                            strcmp_is_zero (extension entry)
                                              ext) file_map)
                                 with
                                 | Some mime => mime
                                 | None => cs "application/octet-stream"
                                 end
                             | None => cs "application/octet-stream"
                             end)])
    with (after c1 [Wrote (header_line (cs "Content-Type")
                             match strrchr path DOT with
                             | Some ext =>
                                 match option_map mime_type
                                         (find (fun entry =>
                                            strcmp_is_zero (extension entry)
                                              ext) file_map)
                                 with
                                 | Some mime => mime
                                 | None => cs "application/octet-stream"
                                 end
                             | None => cs "application/octet-stream"
                             end)])
    by (unfold c1; now rewrite after_after).
  clearbody c1.
  destruct (strrchr path DOT) as [ext|].
  - unfold bind at 1. rewrite content_type_loop_find.
    destruct (find _ file_map) as [entry|]; simpl option_map; cbv iota.
    + unfold bind at 1. rewrite (write_headers_complete _ _ _ H1).
      reflexivity.
    + cbn [negb]. unfold bind. rewrite (write_complete _ _ H1). reflexivity.
  - unfold bind. rewrite (write_complete _ _ H1). reflexivity.
Qed.

(** The Content-Length line: one write, the digits of [%zu]. *)
Lemma write_content_length_complete bytes_read c :
  (0 <= bytes_read < SIZE_MOD)%Z ->
  pending c = [] ->
  write_content_length bytes_read c
  = (after c [Wrote (header_line (cs "Content-Length") (format_zu bytes_read)
                     ++ CRLF)],
     Returned tt).
Proof.
  intros Hn H. unfold write_content_length.
  destruct (get_length_bytes_total bytes_read Hn) as (k & -> & Hk).
  rewrite (snprintf_zu_fits _ _ Hn Hk).
  rewrite (write_headers_complete _ _ _ H), sprintf_length_header.
  reflexivity.
Qed.

Lemma to_size_t_small z : (0 <= z < SIZE_MOD)%Z -> to_size_t z = z.
Proof. intros H. unfold to_size_t. now apply Z.mod_small. Qed.

Lemma malloc_succeeds_range heap z :
  (0 <= z)%Z -> malloc_succeeds heap (z + 1) = true ->
  (0 <= z < 2 ^ 63 - 1)%Z.
Proof.
  unfold malloc_succeeds, PTRDIFF_MAX. intros Hz H.
  apply Z.leb_le in H. lia.
Qed.

Lemma malloc_succeeds_one heap : malloc_succeeds heap 1 = true.
Proof. unfold malloc_succeeds, PTRDIFF_MAX. apply Z.leb_le. lia. Qed.

(** A file whose block is granted and that delivers as many bytes as
    [ftell] announced. *)
Lemma read_write_file_complete heap fs path f c :
  fopen_rb fs path = Some f ->
  (0 <= ftell_size f)%Z ->
  malloc_succeeds heap (ftell_size f + 1) = true ->
  bytes_read f = ftell_size f ->
  pending c = [] ->
  read_write_file heap fs path c
  = (after c [Wrote (header_line (cs "Content-Length")
                       (format_zu (ftell_size f)) ++ CRLF);
              Wrote (fread_all f)],
     Returned tt).
Proof.
  intros Hopen Hpos Hmalloc Hread H. unfold read_write_file. rewrite Hopen.
  pose proof (malloc_succeeds_range _ _ Hpos Hmalloc) as Hlong.
  assert (R : (0 <= ftell_size f < SIZE_MOD)%Z)
    by (unfold SIZE_MOD; lia).
  cbv zeta. fold (fread_all f). fold (bytes_read f).
  rewrite Hread, !(to_size_t_small _ R).
  rewrite (to_size_t_small (ftell_size f + 1))
    by (unfold SIZE_MOD in *; lia).
  rewrite Hmalloc. cbn [negb].
  replace (ftell_size f + 1 <? ftell_size f)%Z with false
    by (symmetry; apply Z.ltb_ge; lia).
  rewrite Z.eqb_refl. unfold bind at 1.
  rewrite (write_content_length_complete _ _ R H).
  unfold bind. rewrite write_complete by exact H.
  rewrite not_ERROR, after_after. reflexivity.
Qed.


(** The same after a size probe that succeeded: the function returns when
    the block is granted and leaves through [exit] when it is refused. *)
Lemma read_write_file_short heap fs path f c :
  fopen_rb fs path = Some f ->
  (0 <= ftell_size f < 2 ^ 63)%Z ->
  bytes_read f <> ftell_size f ->
  read_write_file heap fs path c
  = (c, if malloc_succeeds heap (ftell_size f + 1)
        then Returned tt else Exited EXIT_FAILURE).
Proof.
  intros Hopen Hlong Hshort. unfold read_write_file. rewrite Hopen.
  assert (R : (0 <= ftell_size f < SIZE_MOD)%Z)
    by (unfold SIZE_MOD; lia).
  cbv zeta. fold (fread_all f). fold (bytes_read f).
  assert (B : (bytes_read f <= ftell_size f)%Z).
  { unfold bytes_read, fread_all. rewrite (to_size_t_small _ R).
    rewrite length_firstn. lia. }
  rewrite !(to_size_t_small _ R).
  rewrite (to_size_t_small (ftell_size f + 1))
    by (unfold SIZE_MOD in *; lia).
  destruct (malloc_succeeds heap (ftell_size f + 1)); [|reflexivity].
  cbn [negb].
  replace (ftell_size f + 1 <? bytes_read f)%Z
    with false by (symmetry; apply Z.ltb_ge; lia).
  replace (bytes_read f =? ftell_size f)%Z
    with false by (symmetry; apply Z.eqb_neq; lia).
  reflexivity.
Qed.

(** After [read] and [parse_request] succeeded, the handler answers by the
    status of the path and closes the connection. *)
Lemma process_parsed env c data request :
  incoming c = Some data ->
  parse_request (c_str (request_buffer env data)) = Returned request ->
  process_client_request env c
  = (match snd (get_full_path (files env) (webroot env) (URI request)) with
     | FOUND =>
         construct_file_response (httpversion request)
           (webroot env ++ URI request) found ;;
         read_write_file (heap_limit env) (files env)
           (webroot env ++ URI request)
     | NOT_FOUND =>
         construct_file_response (httpversion request)
           (webroot env ++ URI request) not_found ;;
         _ <- write no_content ;;
         ret tt
     end ;;
     close) c.
Proof.
  intros Hin Hparse. unfold process_client_request.
  unfold bind at 1. unfold read. rewrite Hin.
  rewrite not_ERROR.
  unfold bind at 1. unfold lift.
  unfold request_buffer in Hparse. rewrite Hparse.
  unfold get_full_path. cbv zeta. cbn [snd].
  reflexivity.
Qed.

End Runs.

(* ================================================================= *)
(** ** Responses *)

Section Responses.

Local Open Scope sys_scope.

Lemma supported_entry entry p :
  In entry file_map ->
  strrchr (p ++ extension entry) DOT = Some (extension entry)
  /\ lookup_mime (extension entry) = Some (mime_type entry).
Proof.
  intros H. simpl in H.
  destruct H as [<-|[<-|[<-|[<-|[]]]]]; (split; [|reflexivity]).
  - exact (strrchr_last p DOT (cs "html") eq_refl).
  - exact (strrchr_last p DOT (cs "jpg") eq_refl).
  - exact (strrchr_last p DOT (cs "css") eq_refl).
  - exact (strrchr_last p DOT (cs "js") eq_refl).
Qed.

Lemma fopen_rb_readable fs path f :
  fs path = Some f -> readable f = true -> fopen_rb fs path = Some f.
Proof. intros H R. unfold fopen_rb. now rewrite H, R. Qed.

(** The run of the handler on a [FOUND] path whose file is read whole. *)
Lemma process_found env c data request f :
  incoming c = Some data ->
  parse_request (c_str (request_buffer env data)) = Returned request ->
  snd (get_full_path (files env) (webroot env) (URI request)) = FOUND ->
  fopen_rb (files env) (webroot env ++ URI request) = Some f ->
  (0 <= ftell_size f)%Z ->
  malloc_succeeds (heap_limit env) (ftell_size f + 1) = true ->
  bytes_read f = ftell_size f ->
  pending c = [] ->
  process_client_request env c
  = (after c
       [Wrote (status_line (httpversion request) (cs "200 OK"));
        Wrote (header_line (cs "Content-Type")
                 (content_type_of (webroot env ++ URI request)));
        Wrote (header_line (cs "Content-Length") (format_zu (ftell_size f))
               ++ CRLF);
        Wrote (fread_all f);
        Closed],
     Returned tt).
Proof.
  intros Hin Hparse Hfound Hopen Hpos Hmalloc Hread H.
  rewrite (process_parsed _ _ _ _ Hin Hparse), Hfound.
  unfold bind at 1. unfold bind at 1.
  rewrite (construct_file_response_complete _ _ _ _ H), sprintf_found.
  rewrite (read_write_file_complete _ _ _ _ _ Hopen Hpos Hmalloc Hread)
    by exact H.
  rewrite after_after. unfold close, log, after. simpl.
  now rewrite <- app_assoc.
Qed.

End Responses.

(** C1.  For every entry of the MIME table and every request whose URI
    ends in the entry's extension and names an existing, readable file of
    stable size under the web root, whose block [malloc] grants, on a
    socket that takes every byte: [get_full_path] answers [FOUND], and the
    handler writes the [200 OK]
    status line, the entry's Content-Type, a Content-Length whose digits
    denote the file's byte length, then exactly the file's bytes, and
    closes the connection. *)
Theorem found_file_is_sent_with_its_length
    env c data request entry stem f :
  incoming c = Some data ->
  parse_request (c_str (request_buffer env data)) = Returned request ->
  In entry file_map ->
  URI request = stem ++ extension entry ->
  files env (webroot env ++ URI request) = Some f ->
  readable f = true ->
  ftell_size f = Z.of_nat (List.length (stored f)) ->
  malloc_succeeds (heap_limit env) (ftell_size f + 1) = true ->
  pending c = [] ->
  snd (get_full_path (files env) (webroot env) (URI request)) = FOUND
  /\ process_client_request env c
     = (after c
          [Wrote (status_line (httpversion request) (cs "200 OK"));
           Wrote (header_line (cs "Content-Type") (mime_type entry));
           Wrote (header_line (cs "Content-Length")
                    (format_zu (Z.of_nat (List.length (stored f))))
                  ++ CRLF);
           Wrote (stored f);
           Closed],
        Returned tt)
  /\ decimal_value (format_zu (Z.of_nat (List.length (stored f))))
     = Some (Z.of_nat (List.length (stored f))).
Proof.
  intros Hin Hparse Hentry Huri Hfile Hreadable Hsize Hmalloc H.
  assert (Hpos : (0 <= ftell_size f)%Z) by lia.
  pose proof (malloc_succeeds_range _ _ Hpos Hmalloc) as Hlong.
  destruct (supported_entry entry (webroot env ++ stem) Hentry)
    as [Hext Hmime].
  rewrite <- app_assoc, <- Huri in Hext.
  assert (Hfound :
    snd (get_full_path (files env) (webroot env) (URI request)) = FOUND).
  { apply get_full_path_status. exists (extension entry).
    split; [exact Hext|]. split.
    - unfold access_F_OK. now rewrite Hfile.
    - unfold supported_extensions. now apply in_map. }
  assert (Hall : fread_all f = stored f).
  { unfold fread_all. rewrite to_size_t_small by (unfold SIZE_MOD; lia).
    rewrite Hsize, Nat2Z.id. apply firstn_all. }
  split; [exact Hfound|]. split.
  - rewrite (process_found env c data request f Hin Hparse Hfound
               (fopen_rb_readable _ _ _ Hfile Hreadable)).
    + unfold content_type_of. rewrite Hext, Hmime, Hall, Hsize.
      reflexivity.
    + exact Hpos.
    + exact Hmalloc.
    + unfold bytes_read. now rewrite Hall.
    + exact H.
  - apply decimal_value_format_zu. unfold SIZE_MOD. lia.
Qed.

Lemma found_file_is_sent_with_its_length_witness :
  snd (get_full_path Examples.www (cs "/srv/www") (cs "/index.html"))
  = FOUND
  /\ process_client_request Examples.server
       (Examples.client "GET /index.html HTTP/1.1")
     = (after (Examples.client "GET /index.html HTTP/1.1")
          [Wrote (cs "HTTP/1.1 200 OK" ++ CRLF);
           Wrote (cs "Content-Type: text/html" ++ CRLF);
           Wrote (cs "Content-Length: 12" ++ CRLF ++ CRLF);
           Wrote (cs "Hello world!");
           Closed],
        Returned tt)
  /\ decimal_value (cs "12") = Some 12%Z.
Proof.
  exact (found_file_is_sent_with_its_length
           Examples.server (Examples.client "GET /index.html HTTP/1.1")
           (cs "GET /index.html HTTP/1.1" ++ CRLF)
           {| method := cs "GET";
              URI := cs "/index.html";
              httpversion := cs "HTTP/1.1" |}
           {| extension := cs ".html"; mime_type := cs "text/html" |}
           (cs "/index")
           (Examples.a_file true "Hello world!")
           eq_refl eq_refl (or_introl eq_refl) eq_refl eq_refl eq_refl
           eq_refl eq_refl eq_refl).
Defined.

(** C10.  A [FOUND] request for a file of length zero still gets a
    complete response: [get_length_bytes] counts no digit in [0], yet the
    Content-Length line carries the digit [0], and the body write that
    follows has no byte. *)
Theorem empty_file_is_sent_with_length_zero env c data request f :
  incoming c = Some data ->
  parse_request (c_str (request_buffer env data)) = Returned request ->
  snd (get_full_path (files env) (webroot env) (URI request)) = FOUND ->
  fopen_rb (files env) (webroot env ++ URI request) = Some f ->
  ftell_size f = 0%Z ->
  pending c = [] ->
  get_length_bytes 0 = Some 0%Z
  /\ process_client_request env c
     = (after c
          [Wrote (status_line (httpversion request) (cs "200 OK"));
           Wrote (header_line (cs "Content-Type")
                    (content_type_of (webroot env ++ URI request)));
           Wrote (cs "Content-Length: 0" ++ CRLF ++ CRLF);
           Wrote [];
           Closed],
        Returned tt).
Proof.
  intros Hin Hparse Hfound Hopen Hzero H.
  split; [reflexivity|].
  assert (Hall : fread_all f = []).
  { unfold fread_all. rewrite Hzero. reflexivity. }
  rewrite (process_found env c data request f Hin Hparse Hfound Hopen).
  - rewrite Hall, Hzero. reflexivity.
  - rewrite Hzero. lia.
  - rewrite Hzero. apply malloc_succeeds_one.
  - unfold bytes_read. rewrite Hall, Hzero. reflexivity.
  - exact H.
Qed.

Lemma empty_file_is_sent_with_length_zero_witness :
  get_length_bytes 0 = Some 0%Z
  /\ process_client_request Examples.server
       (Examples.client "GET /empty.css HTTP/1.1")
     = (after (Examples.client "GET /empty.css HTTP/1.1")
          [Wrote (cs "HTTP/1.1 200 OK" ++ CRLF);
           Wrote (cs "Content-Type: text/css" ++ CRLF);
           Wrote (cs "Content-Length: 0" ++ CRLF ++ CRLF);
           Wrote [];
           Closed],
        Returned tt).
Proof.
  exact (empty_file_is_sent_with_length_zero
           Examples.server (Examples.client "GET /empty.css HTTP/1.1")
           (cs "GET /empty.css HTTP/1.1" ++ CRLF)
           {| method := cs "GET";
              URI := cs "/empty.css";
              httpversion := cs "HTTP/1.1" |}
           (Examples.a_file true "")
           eq_refl eq_refl eq_refl eq_refl eq_refl eq_refl).
Defined.



(** C2, as the code has it.  On a request whose path resolves to
    [NOT_FOUND], on a socket that takes every byte, the handler writes the
    [404 Not Found] status line, a Content-Type line (the MIME type of the
    path's extension when the table has it, [application/octet-stream]
    otherwise), the marker [Content-Length: 0] with the blank line, no
    body, and closes the connection. *)
Theorem not_found_response_has_content_type_and_no_body
    env c data request :
  incoming c = Some data ->
  parse_request (c_str (request_buffer env data)) = Returned request ->
  snd (get_full_path (files env) (webroot env) (URI request)) = NOT_FOUND ->
  pending c = [] ->
  process_client_request env c
  = (after c
       [Wrote (status_line (httpversion request) (cs "404 Not Found"));
        Wrote (header_line (cs "Content-Type")
                 (content_type_of (webroot env ++ URI request)));
        Wrote (cs "Content-Length: 0" ++ CRLF ++ CRLF);
        Closed],
     Returned tt).
Proof.
  intros Hin Hparse Hstatus H.
  rewrite (process_parsed _ _ _ _ Hin Hparse), Hstatus.
  unfold Sys.bind at 1. unfold Sys.bind at 1.
  rewrite (construct_file_response_complete _ _ _ _ H), sprintf_not_found.
  unfold Sys.bind. rewrite write_complete by exact H.
  unfold close, log, after. simpl. now rewrite <- !app_assoc.
Qed.

Lemma not_found_response_witness :
  process_client_request Examples.server
    (Examples.client "GET /missing.html HTTP/1.1")
  = (after (Examples.client "GET /missing.html HTTP/1.1")
       [Wrote (cs "HTTP/1.1 404 Not Found" ++ CRLF);
        Wrote (cs "Content-Type: text/html" ++ CRLF);
        Wrote (cs "Content-Length: 0" ++ CRLF ++ CRLF);
        Closed],
     Returned tt).
Proof.
  exact (not_found_response_has_content_type_and_no_body
           Examples.server (Examples.client "GET /missing.html HTTP/1.1")
           (cs "GET /missing.html HTTP/1.1" ++ CRLF)
           {| method := cs "GET";
              URI := cs "/missing.html";
              httpversion := cs "HTTP/1.1" |}
           eq_refl eq_refl eq_refl eq_refl).
Defined.

(** C2 as stated fails.  For [GET /missing.html HTTP/1.1] with the file
    absent the bytes sent are not the status line followed by
    [Content-Length: 0]: a line [Content-Type: text/html] stands between
    them. *)
Lemma missing_page_response_has_content_type :
  Examples.www (cs "/srv/www/missing.html") = None
  /\ bytes_sent
       (trace (fst (process_client_request Examples.server
                      (Examples.client "GET /missing.html HTTP/1.1"))))
     = cs "HTTP/1.1 404 Not Found" ++ CRLF
       ++ cs "Content-Type: text/html" ++ CRLF
       ++ cs "Content-Length: 0" ++ CRLF ++ CRLF
  /\ bytes_sent
       (trace (fst (process_client_request Examples.server
                      (Examples.client "GET /missing.html HTTP/1.1"))))
     <> cs "HTTP/1.1 404 Not Found" ++ CRLF
        ++ cs "Content-Length: 0" ++ CRLF ++ CRLF.
Proof.
  split; [reflexivity|]. split; [vm_compute; reflexivity|].
  vm_compute. discriminate.
Qed.

(** C3: the code at a malformed request line.  On a first line with a
    single token, [GET], the second call of [strtok_r] returns NULL and
    [strdup] receives it: the behaviour is undefined, for [parse_request]
    and for the handler, which sends nothing and does not close the
    connection, whatever the socket would answer.  With two tokens the
    store that trims the version lands before the start of an empty
    block. *)
Theorem malformed_request_line_is_undefined :
  parse_request (cs "GET" ++ CRLF) = Undefined NullPointer
  /\ parse_request (cs "GET /index.html" ++ CRLF) = Undefined OutOfBounds
  /\ forall answers,
       process_client_request Examples.server
         (Examples.client_with "GET" answers)
       = (Examples.client_with "GET" answers, Undefined NullPointer).
Proof.
  split; [vm_compute; reflexivity|].
  split; [vm_compute; reflexivity|].
  intros answers. vm_compute. reflexivity.
Qed.

(* ================================================================= *)
(** ** Closing the connection *)

Section Closing.

Local Open Scope sys_scope.

Lemma close_count_app t1 t2 :
  close_count (t1 ++ t2) = close_count t1 + close_count t2.
Proof.
  induction t1 as [|[b|] t1 IH]; simpl; [reflexivity|exact IH|].
  now rewrite IH.
Qed.

Lemma never_closes_ret {A} (a : A) : never_closes (ret a).
Proof. intros c. reflexivity. Qed.

Lemma never_closes_exit {A} code : never_closes (@exit A code).
Proof. intros c. reflexivity. Qed.

Lemma never_closes_lift {A} (o : outcome A) : never_closes (lift o).
Proof. intros c. reflexivity. Qed.

Lemma never_closes_bind {A B} (m : M A) (k : A -> M B) :
  never_closes m -> (forall a, never_closes (k a)) -> never_closes (bind m k).
Proof.
  intros Hm Hk c. unfold bind. specialize (Hm c).
  destruct (m c) as [c' [a| | |]]; simpl in *; try exact Hm.
  rewrite (Hk a c'). exact Hm.
Qed.

Lemma never_closes_write buf : never_closes (write buf).
Proof.
  intros c. unfold write.
  destruct (pending c) as [|[|n] rest]; simpl;
    rewrite ?close_count_app; simpl; lia.
Qed.

Lemma never_closes_read before count : never_closes (read before count).
Proof. intros c. unfold read. destruct (incoming c); reflexivity. Qed.

Lemma never_closes_write_headers data format :
  never_closes (write_headers data format).
Proof.
  unfold write_headers. apply never_closes_bind.
  - apply never_closes_write.
  - intros n. destruct (n =? ERROR)%Z;
      [apply never_closes_exit|apply never_closes_ret].
Qed.

Lemma never_closes_content_type_loop entries ext :
  never_closes (content_type_loop entries ext).
Proof.
  induction entries as [|entry rest IH]; simpl.
  - apply never_closes_ret.
  - destruct (strcmp_is_zero (extension entry) ext); [|exact IH].
    apply never_closes_bind; [apply never_closes_write_headers|].
    intros _. apply never_closes_ret.
Qed.

Lemma never_closes_construct_file_response version path status :
  never_closes (construct_file_response version path status).
Proof.
  unfold construct_file_response.
  apply never_closes_bind; [apply never_closes_write_headers|].
  intros _. destruct (strrchr path DOT) as [ext|].
  - apply never_closes_bind; [apply never_closes_content_type_loop|].
    intros [|]; simpl; [apply never_closes_ret|].
    apply never_closes_bind; [apply never_closes_write|].
    intros _. apply never_closes_ret.
  - apply never_closes_bind; [apply never_closes_write|].
    intros _. apply never_closes_ret.
Qed.

Lemma never_closes_write_content_length bytes :
  never_closes (write_content_length bytes).
Proof.
  unfold write_content_length.
  destruct (get_length_bytes bytes);
    [apply never_closes_write_headers|apply never_closes_lift].
Qed.

Lemma never_closes_read_write_file heap fs path :
  never_closes (read_write_file heap fs path).
Proof.
  unfold read_write_file.
  destruct (fopen_rb fs path) as [f|]; [|apply never_closes_exit].
  cbv zeta.
  destruct (negb _); [apply never_closes_exit|].
  destruct (_ <? _)%Z; [apply never_closes_lift|].
  destruct (_ =? _)%Z; [|apply never_closes_ret].
  apply never_closes_bind; [apply never_closes_write_content_length|].
  intros _. apply never_closes_bind; [apply never_closes_write|].
  intros n. destruct (n =? ERROR)%Z;
    [apply never_closes_exit|apply never_closes_ret].
Qed.

Lemma closes_on_return_exit {A} code : closes_on_return (@exit A code).
Proof. intros c. reflexivity. Qed.

Lemma closes_on_return_close (m : M unit) :
  never_closes m -> closes_on_return (m ;; close).
Proof.
  intros Hm c. unfold bind. specialize (Hm c).
  destruct (m c) as [c' [a| | |]]; simpl in *; try exact Hm.
  rewrite close_count_app. simpl. split; [lia|]. now exists (trace c').
Qed.

Lemma closes_on_return_bind {A B} (m : M A) (k : A -> M B) :
  never_closes m -> (forall a, closes_on_return (k a)) ->
  closes_on_return (bind m k).
Proof.
  intros Hm Hk c. unfold bind. specialize (Hm c).
  destruct (m c) as [c' [a| | |]]; simpl in *; try exact Hm.
  specialize (Hk a c'). rewrite <- Hm. exact Hk.
Qed.

(** The handler closes the connection when, and only when, it returns. *)
Lemma process_client_request_closes env :
  closes_on_return (process_client_request env).
Proof.
  unfold process_client_request.
  apply closes_on_return_bind; [apply never_closes_read|].
  intros [n buffer]. destruct (n =? ERROR)%Z;
    [apply closes_on_return_exit|].
  apply closes_on_return_bind; [apply never_closes_lift|].
  intros request.
  destruct (get_full_path (files env) (webroot env) (URI request))
    as [path [|]]; apply closes_on_return_close.
  - apply never_closes_bind;
      [apply never_closes_construct_file_response|].
    intros _. apply never_closes_read_write_file.
  - apply never_closes_bind;
      [apply never_closes_construct_file_response|].
    intros _. apply never_closes_bind; [apply never_closes_write|].
    intros _. apply never_closes_ret.
Qed.

End Closing.

(** C6, as the code has it.  Whenever the handler returns, it has closed
    the connection exactly once, as its last action, whichever branch it
    took; when it does not return (it called [exit] after a failed [read]
    or [write] or a failed [fopen], or its behaviour is undefined on a
    malformed request line) it has not closed the connection. *)
Theorem connection_closed_once_iff_handler_returns env c :
  match snd (process_client_request env c) with
  | Returned _ =>
      close_count (trace (fst (process_client_request env c)))
      = S (close_count (trace c))
      /\ exists t,
           trace (fst (process_client_request env c)) = t ++ [Closed]
  | _ =>
      close_count (trace (fst (process_client_request env c)))
      = close_count (trace c)
  end.
Proof. exact (process_client_request_closes env c). Qed.

(** C6 as stated fails.  When the write of the status line fails, the
    handler leaves through [exit(EXIT_FAILURE)] and the connection is
    never closed. *)
Lemma write_failure_leaves_connection_open :
  snd (process_client_request Examples.server
         (Examples.client_with "GET /index.html HTTP/1.1" [WriteError]))
  = Exited EXIT_FAILURE
  /\ close_count
       (trace (fst (process_client_request Examples.server
                      (Examples.client_with "GET /index.html HTTP/1.1"
                         [WriteError]))))
     = 0
  /\ close_count
       (trace (fst (process_client_request Examples.server
                      (Examples.client_with "GET /index.html HTTP/1.1"
                         [WriteError]))))
     <> 1.
Proof.
  split; [vm_compute; reflexivity|].
  split; [vm_compute; reflexivity|].
  vm_compute. discriminate.
Qed.

(* ================================================================= *)
(** ** Failures of [read] and [write] *)

Section Failures.

Local Open Scope sys_scope.

Lemma write_headers_error data format i rest t :
  write_headers data format
    {| incoming := i; pending := WriteError :: rest; trace := t |}
  = ({| incoming := i; pending := rest; trace := t |},
     Exited EXIT_FAILURE).
Proof. reflexivity. Qed.

Lemma write_headers_accepted data format i n rest t :
  write_headers data format
    {| incoming := i; pending := Accepts n :: rest; trace := t |}
  = ({| incoming := i; pending := rest;
        trace := t ++ [Wrote (firstn n (sprintf format data))] |},
     Returned tt).
Proof.
  unfold write_headers, bind, write. cbn [pending].
  rewrite not_ERROR. reflexivity.
Qed.

Lemma write_error buf i rest t :
  write buf {| incoming := i; pending := WriteError :: rest; trace := t |}
  = ({| incoming := i; pending := rest; trace := t |}, Returned ERROR).
Proof. reflexivity. Qed.

(** A write whose result is dropped, then [close]: the handler returns. *)
Lemma unchecked_write_then_close buf c :
  snd (((_ <- write buf ;; ret tt) ;; close) c) = Returned tt.
Proof.
  unfold bind, write.
  destruct (pending c) as [|[|n] rest]; reflexivity.
Qed.

Lemma find_supported entries ext :
  supported_loop entries ext
  = match find (fun entry => strcmp_is_zero (extension entry) ext) entries
    with Some _ => true | None => false end.
Proof.
  induction entries as [|entry rest IH]; simpl; [reflexivity|].
  destruct (strcmp_is_zero (extension entry) ext); [reflexivity|exact IH].
Qed.

Lemma construct_outcome version path status i answers t :
  match answers with
  | WriteError :: rest =>
      construct_file_response version path status
        {| incoming := i; pending := answers; trace := t |}
      = ({| incoming := i; pending := rest; trace := t |},
         Exited EXIT_FAILURE)
  | Accepts n0 :: WriteError :: rest =>
      exists t',
        construct_file_response version path status
          {| incoming := i; pending := answers; trace := t |}
        = ({| incoming := i; pending := rest; trace := t' |},
           if type_write_checked path then Exited EXIT_FAILURE
           else Returned tt)
  | Accepts n0 :: Accepts n1 :: rest =>
      exists t',
        construct_file_response version path status
          {| incoming := i; pending := answers; trace := t |}
        = ({| incoming := i; pending := rest; trace := t' |}, Returned tt)
  | _ => True
  end.
Proof.
  destruct answers as [|[|n0] rest]; [exact I|reflexivity|].
  destruct rest as [|[|n1] rest]; [exact I| |].
  - unfold construct_file_response, type_write_checked, supported_file.
    unfold bind at 1. rewrite write_headers_accepted.
    destruct (strrchr path DOT) as [ext|].
    + unfold bind at 1. rewrite content_type_loop_find, find_supported.
      destruct (find _ file_map) as [entry|].
      * unfold bind at 1. rewrite write_headers_error. eexists; reflexivity.
      * cbn [negb]. unfold bind. rewrite write_error. eexists; reflexivity.
    + unfold bind. rewrite write_error. eexists; reflexivity.
  - unfold construct_file_response.
    unfold bind at 1. rewrite write_headers_accepted.
    destruct (strrchr path DOT) as [ext|].
    + unfold bind at 1. rewrite content_type_loop_find.
      destruct (find _ file_map) as [entry|].
      * unfold bind at 1. rewrite write_headers_accepted. cbn. eexists; reflexivity.
      * cbn [negb]. unfold bind, write. cbn. eexists; reflexivity.
    + unfold bind, write. cbn. eexists; reflexivity.
Qed.

Lemma bind_outcome {A B} (m : M A) (k : A -> M B) c c' o :
  m c = (c', o) ->
  bind m k c = match o with
               | Returned a => k a c'
               | Exited code => (c', Exited code)
               | Undefined f => (c', Undefined f)
               | OutOfFuel => (c', OutOfFuel)
               end.
Proof. intros H. unfold bind. rewrite H. destruct o; reflexivity. Qed.

Lemma write_fails_at_inv k answers :
  write_fails_at k answers = true ->
  match k with
  | 0 => exists rest, answers = WriteError :: rest
  | 1 => exists n0 rest, answers = Accepts n0 :: WriteError :: rest
  | 2 => exists n0 n1 rest,
           answers = Accepts n0 :: Accepts n1 :: WriteError :: rest
  | 3 => exists n0 n1 n2 rest,
           answers
           = Accepts n0 :: Accepts n1 :: Accepts n2 :: WriteError :: rest
  | _ => True
  end.
Proof.
  intros H.
  destruct k as [|[|[|[|k]]]]; [| | | |exact I].
  - destruct answers as [|[|?] rest]; try discriminate H. eauto.
  - destruct answers as [|[|n0] [|[|?] rest]]; try discriminate H. eauto.
  - destruct answers as [|[|n0] [|[|n1] [|[|?] rest]]];
      try discriminate H. eauto.
  - destruct answers as [|[|n0] [|[|n1] [|[|n2] [|[|?] rest]]]];
      try discriminate H. eauto 6.
Qed.

Lemma read_write_file_outcome heap fs path f i answers t :
  fopen_rb fs path = Some f ->
  negb (malloc_succeeds heap (to_size_t (to_size_t (ftell_size f) + 1)))
  = false ->
  (to_size_t (to_size_t (ftell_size f) + 1) <? bytes_read f)%Z = false ->
  (bytes_read f =? to_size_t (ftell_size f))%Z = true ->
  match answers with
  | WriteError :: rest
  | Accepts _ :: WriteError :: rest =>
      snd (read_write_file heap fs path
             {| incoming := i; pending := answers; trace := t |})
      = Exited EXIT_FAILURE
  | _ => True
  end.
Proof.
  intros Hopen Hmalloc Halloc Hread.
  assert (R : (0 <= bytes_read f < SIZE_MOD)%Z).
  { apply Z.eqb_eq in Hread. rewrite Hread. unfold to_size_t.
    apply Z.mod_pos_bound. reflexivity. }
  destruct (get_length_bytes_total _ R) as (k & Hk & Kb).
  assert (E : forall c,
    read_write_file heap fs path c
    = (write_headers
         (snprintf_zu
            (to_size_t
               (to_size_t (Z.of_nat (strlen length_header) + k) + 1))
            (bytes_read f))
         length_header ;;
       n <- write (fread_all f) ;;
       if (n =? ERROR)%Z then exit EXIT_FAILURE else ret tt) c).
  { intros c. unfold read_write_file. rewrite Hopen. cbv zeta.
    fold (fread_all f). fold (bytes_read f).
    rewrite Hmalloc, Halloc, Hread.
    unfold write_content_length. rewrite Hk. reflexivity. }
  destruct answers as [|[|n0] rest]; [exact I| |].
  - rewrite E. unfold bind at 1. rewrite write_headers_error. reflexivity.
  - destruct rest as [|[|n1] rest]; try exact I.
    rewrite E. unfold bind at 1. rewrite write_headers_accepted.
    unfold bind at 1. rewrite write_error. reflexivity.
Qed.

Lemma found_type_write_checked fs webroot uri :
  snd (get_full_path fs webroot uri) = FOUND ->
  type_write_checked (webroot ++ uri) = true.
Proof.
  intros H. apply get_full_path_status in H as (ext & Hext & _ & Hin).
  unfold type_write_checked. rewrite Hext. now apply supported_file_iff.
Qed.

Lemma failure_outcome env c p checked :
  failure_is_checked env c p = Some checked ->
  snd (process_client_request env c)
  = if checked then Exited EXIT_FAILURE else Returned tt.
Proof.
  unfold failure_is_checked. intros H.
  destruct p as [|k].
  - destruct (incoming c) eqn:Hin; [discriminate|]. injection H as <-.
    unfold process_client_request, bind, read. rewrite Hin. reflexivity.
  - destruct (incoming c) as [data|] eqn:Hin; [|discriminate].
    destruct (parse_request (c_str (request_buffer env data)))
      as [request| | |] eqn:Hparse; try discriminate.
    destruct (write_fails_at k (pending c)) eqn:Hfail; [|discriminate].
    rewrite (process_parsed _ _ _ _ Hin Hparse).
    apply write_fails_at_inv in Hfail.
    destruct c as [i answers t]. cbn [pending] in Hfail. clear Hin.
    unfold planned_writes in H.
    set (path := webroot env ++ URI request) in *.
    destruct (snd (get_full_path (files env) (webroot env) (URI request)))
      eqn:Hstatus.
    + (* FOUND *)
      pose proof (found_type_write_checked _ _ _ Hstatus) as Htype.
      fold path in Htype. rewrite Htype in H.
      pose proof (construct_outcome (httpversion request) path found
                    i answers t) as Hc.
      rewrite Htype in Hc.
      destruct k as [|[|[|[|k]]]].
      * destruct Hfail as (rest & ->). injection H as <-.
        unfold bind at 1. unfold bind at 1. rewrite Hc. reflexivity.
      * destruct Hfail as (n0 & rest & ->). injection H as <-.
        destruct Hc as (t' & Hc).
        unfold bind at 1. unfold bind at 1. rewrite Hc. reflexivity.
      * destruct Hfail as (n0 & n1 & rest & ->).
        destruct Hc as (t' & Hc).
        unfold bind at 1. unfold bind at 1. rewrite Hc.
        destruct (fopen_rb (files env) path) as [f|] eqn:Hopen;
          [|discriminate].
        destruct (negb _) eqn:Hmalloc; [discriminate|].
        destruct (_ <? _)%Z eqn:Halloc; [discriminate|].
        destruct (_ =? _)%Z eqn:Hread; [|discriminate].
        injection H as <-.
        pose proof (read_write_file_outcome _ _ _ _ i
                      (WriteError :: rest) t' Hopen Hmalloc Halloc Hread)
          as Hr.
        cbv beta iota in Hr.
        destruct (read_write_file (heap_limit env) (files env) path _)
          as [c' o].
        simpl in Hr. subst o. reflexivity.
      * destruct Hfail as (n0 & n1 & n2 & rest & ->).
        destruct Hc as (t' & Hc).
        unfold bind at 1. unfold bind at 1. rewrite Hc.
        destruct (fopen_rb (files env) path) as [f|] eqn:Hopen;
          [|discriminate].
        destruct (negb _) eqn:Hmalloc; [discriminate|].
        destruct (_ <? _)%Z eqn:Halloc; [discriminate|].
        destruct (_ =? _)%Z eqn:Hread; [|discriminate].
        injection H as <-.
        pose proof (read_write_file_outcome _ _ _ _ i
                      (Accepts n2 :: WriteError :: rest) t'
                      Hopen Hmalloc Halloc Hread) as Hr.
        cbv beta iota in Hr.
        destruct (read_write_file (heap_limit env) (files env) path _)
          as [c' o].
        simpl in Hr. subst o. reflexivity.
      * exfalso. destruct (fopen_rb (files env) path) as [f|];
          [|discriminate].
        destruct (negb _); [discriminate|].
        destruct (_ <? _)%Z; [discriminate|].
        destruct (_ =? _)%Z; [|discriminate].
        simpl in H. destruct k; discriminate.
    + (* NOT_FOUND *)
      pose proof (construct_outcome (httpversion request) path not_found
                    i answers t) as Hc.
      destruct k as [|[|[|k]]].
      * destruct Hfail as (rest & ->). injection H as <-.
        unfold bind at 1. unfold bind at 1. rewrite Hc. reflexivity.
      * destruct Hfail as (n0 & rest & ->). injection H as <-.
        destruct Hc as (t' & Hc).
        destruct (type_write_checked path).
        -- unfold bind at 1. unfold bind at 1. rewrite Hc. reflexivity.
        -- unfold bind at 1. unfold bind at 1. rewrite Hc.
           apply unchecked_write_then_close.
      * destruct Hfail as (n0 & n1 & rest & ->). injection H as <-.
        destruct Hc as (t' & Hc).
        unfold bind at 1. unfold bind at 1. rewrite Hc. reflexivity.
      * simpl in H. destruct k; discriminate.
Qed.

End Failures.

(** C7, as the code has it.  A failure of [read], or of a [write] whose
    result the code compares with [ERROR] (the status line, a Content-Type
    line taken from the MIME table, the Content-Length line of a file, the
    body), is not isolated to the connection: the handler calls
    [exit(EXIT_FAILURE)], which ends the process, and does not close the
    connection.  A failure of a [write] whose result the code ignores (the
    [application/octet-stream] line, the [Content-Length: 0] marker) is
    isolated: the handler goes on, closes the connection once and
    returns. *)
Theorem io_failure_exits_unless_result_ignored env c p checked :
  failure_is_checked env c p = Some checked ->
  if checked
  then snd (process_client_request env c) = Exited EXIT_FAILURE
       /\ close_count (trace (fst (process_client_request env c)))
          = close_count (trace c)
  else snd (process_client_request env c) = Returned tt
       /\ close_count (trace (fst (process_client_request env c)))
          = S (close_count (trace c)).
Proof.
  intros H. pose proof (failure_outcome _ _ _ _ H) as Ho.
  pose proof (process_client_request_closes env c) as Hc.
  rewrite Ho in Hc. destruct checked; split; try exact Ho.
  - exact Hc.
  - exact (proj1 Hc).
Qed.

Lemma io_failure_exits_witness :
  snd (process_client_request Examples.server
         (Examples.client_with "GET /index.html HTTP/1.1"
            [Accepts 100; Accepts 100; Accepts 100; WriteError]))
  = Exited EXIT_FAILURE
  /\ close_count
       (trace (fst (process_client_request Examples.server
                      (Examples.client_with "GET /index.html HTTP/1.1"
                         [Accepts 100; Accepts 100; Accepts 100;
                          WriteError]))))
     = close_count
         (trace (Examples.client_with "GET /index.html HTTP/1.1"
                   [Accepts 100; Accepts 100; Accepts 100; WriteError])).
Proof.
  exact (io_failure_exits_unless_result_ignored
           Examples.server
           (Examples.client_with "GET /index.html HTTP/1.1"
              [Accepts 100; Accepts 100; Accepts 100; WriteError])
           (WriteFails 3) true eq_refl).
Defined.

(** C7 as stated fails.  When [read] fails on a connection the handler
    does not return to its worker and does not close the connection: the
    process exits. *)
Lemma read_failure_ends_process :
  process_client_request Examples.server Examples.broken_client
  = (Examples.broken_client, Exited EXIT_FAILURE)
  /\ snd (process_client_request Examples.server Examples.broken_client)
     <> Returned tt
  /\ close_count
       (trace (fst (process_client_request Examples.server
                      Examples.broken_client)))
     = 0.
Proof.
  split; [reflexivity|]. split; [discriminate|reflexivity].
Qed.

(* ================================================================= *)
(** ** [strtok_r] in general, and [parse_request] on every buffer *)

Section Tokens.

Lemma all_in_cons set c s :
  all_in set (c :: s) = true ->
  is_nul c = false /\ mem_char c set = true /\ all_in set s = true.
Proof.
  unfold all_in; simpl. rewrite !andb_true_iff, !negb_true_iff. tauto.
Qed.

Lemma c_str_app_all_in set a rest :
  all_in set a = true -> c_str (a ++ rest) = a ++ c_str rest.
Proof.
  induction a as [|c a IH]; simpl; [reflexivity|].
  intros H. apply all_in_cons in H as (Hn & _ & Ha).
  rewrite Hn, IH by assumption. reflexivity.
Qed.

Lemma strspn_all_in set a rest :
  all_in set a = true ->
  strspn (a ++ rest) set = List.length a + strspn rest set.
Proof.
  induction a as [|c a IH]; simpl; [reflexivity|].
  intros H. apply all_in_cons in H as (_ & Hc & Ha).
  rewrite Hc, IH by assumption. reflexivity.
Qed.

Lemma strspn_free_head set t rest :
  t <> [] -> free_of set t = true -> strspn (t ++ rest) set = 0.
Proof.
  destruct t as [|c t]; [contradiction|]. intros _ H.
  apply free_of_cons in H as (_ & Hc & _). simpl. now rewrite Hc.
Qed.

Lemma strcspn_end set a :
  free_of set a = true -> strcspn a set = List.length a.
Proof.
  induction a as [|c a IH]; simpl; [reflexivity|].
  intros H. apply free_of_cons in H as (_ & Hc & Ha).
  rewrite Hc, IH by assumption. reflexivity.
Qed.

Lemma load_at (a : memory) x b n :
  n = List.length a -> load (a ++ x :: b) n = x.
Proof. intros ->. apply load_middle. Qed.

Lemma load_at2 (pre a : memory) x b :
  load (pre ++ a ++ x :: b) (List.length pre + List.length a) = x.
Proof. rewrite app_assoc, <- length_app. apply load_middle. Qed.

Lemma load_at3 (pre a t : memory) x b :
  load (pre ++ a ++ t ++ x :: b)
    (List.length pre + List.length a + List.length t) = x.
Proof.
  rewrite (app_assoc a), <- Nat.add_assoc, <- length_app. apply load_at2.
Qed.

Lemma store_at3 (pre a t : memory) x b c :
  store (pre ++ a ++ t ++ x :: b)
    (List.length pre + List.length a + List.length t) c
  = pre ++ a ++ t ++ c :: b.
Proof.
  rewrite !app_assoc, <- !length_app, store_middle. reflexivity.
Qed.

Lemma cstr_at2 (pre a b : memory) :
  cstr_at (pre ++ a ++ b) (List.length pre + List.length a) = c_str b.
Proof. rewrite app_assoc, <- length_app. apply cstr_at_middle. Qed.

(** No token left: only delimiters before the terminator. *)
Lemma strtok_r_none pre dl post delim s saveptr :
  match s with Some p => p | None => saveptr end = List.length pre ->
  all_in delim dl = true ->
  fst (strtok_r (pre ++ dl ++ NUL :: post) s delim saveptr)
  = (pre ++ dl ++ NUL :: post, None).
Proof.
  intros Hs Hdl. unfold strtok_r. rewrite Hs. clear Hs.
  destruct (is_nul (load (pre ++ dl ++ NUL :: post) (List.length pre)));
    [reflexivity|].
  rewrite cstr_at_middle, (c_str_app_all_in _ _ _ Hdl).
  change (c_str (NUL :: post)) with (@nil ascii).
  rewrite (strspn_all_in _ _ _ Hdl). simpl strspn. rewrite Nat.add_0_r.
  rewrite load_at2. reflexivity.
Qed.

(** The last token of the string: it ends on the terminator. *)
Lemma strtok_r_last pre dl t post delim s saveptr :
  match s with Some p => p | None => saveptr end = List.length pre ->
  all_in delim dl = true ->
  t <> [] -> free_of delim t = true ->
  strtok_r (pre ++ dl ++ t ++ NUL :: post) s delim saveptr
  = (pre ++ dl ++ t ++ NUL :: post,
     Some (List.length pre + List.length dl),
     List.length pre + List.length dl + List.length t).
Proof.
  intros Hs Hdl Hne Ht. unfold strtok_r. rewrite Hs. clear Hs.
  assert (Hhead : forall k, k = List.length pre + List.length dl ->
            is_nul (load (pre ++ dl ++ t ++ NUL :: post) k) = false).
  { intros k ->. destruct t as [|c t]; [contradiction|].
    apply free_of_cons in Ht as (Hn & _ & _).
    change ((c :: t) ++ NUL :: post) with (c :: (t ++ NUL :: post)).
    now rewrite load_at2. }
  assert (Hfirst :
    is_nul (load (pre ++ dl ++ t ++ NUL :: post) (List.length pre)) = false).
  { destruct dl as [|c dl].
    - apply Hhead. simpl. lia.
    - apply all_in_cons in Hdl as (Hn & _ & _).
      change (pre ++ (c :: dl) ++ t ++ NUL :: post)
        with (pre ++ c :: (dl ++ t ++ NUL :: post)).
      now rewrite load_middle. }
  rewrite Hfirst, cstr_at_middle, (c_str_app_all_in _ _ _ Hdl).
  rewrite (c_str_free_nul _ _ _ Ht).
  rewrite (strspn_all_in _ _ _ Hdl).
  assert (Hsp : strspn t delim = 0).
  { rewrite <- (app_nil_r t). exact (strspn_free_head _ _ _ Hne Ht). }
  rewrite Hsp, Nat.add_0_r.
  rewrite (Hhead _ eq_refl), cstr_at2, (c_str_free_nul _ _ _ Ht).
  rewrite (strcspn_end _ _ Ht), load_at3. reflexivity.
Qed.

(** A token followed by a delimiter, after any run of delimiters. *)
Lemma strtok_r_delim pre dl t x post delim s saveptr :
  match s with Some p => p | None => saveptr end = List.length pre ->
  all_in delim dl = true ->
  t <> [] -> free_of delim t = true ->
  mem_char x delim = true -> is_nul x = false ->
  strtok_r (pre ++ dl ++ t ++ x :: post) s delim saveptr
  = (pre ++ dl ++ t ++ NUL :: post,
     Some (List.length pre + List.length dl),
     S (List.length pre + List.length dl + List.length t)).
Proof.
  intros Hs Hdl Hne Ht Hx Hxn. unfold strtok_r. rewrite Hs. clear Hs.
  assert (Hhead : forall k, k = List.length pre + List.length dl ->
            is_nul (load (pre ++ dl ++ t ++ x :: post) k) = false).
  { intros k ->. destruct t as [|c t]; [contradiction|].
    apply free_of_cons in Ht as (Hn & _ & _).
    change ((c :: t) ++ x :: post) with (c :: (t ++ x :: post)).
    now rewrite load_at2. }
  assert (Hfirst :
    is_nul (load (pre ++ dl ++ t ++ x :: post) (List.length pre)) = false).
  { destruct dl as [|c dl].
    - apply Hhead. simpl. lia.
    - apply all_in_cons in Hdl as (Hn & _ & _).
      change (pre ++ (c :: dl) ++ t ++ x :: post)
        with (pre ++ c :: (dl ++ t ++ x :: post)).
      now rewrite load_middle. }
  assert (Hcx : c_str (x :: post) = x :: c_str post)
    by (simpl; now rewrite Hxn).
  rewrite Hfirst, cstr_at_middle, (c_str_app_all_in _ _ _ Hdl).
  rewrite (c_str_app_free _ _ _ Ht), Hcx.
  rewrite (strspn_all_in _ _ _ Hdl), (strspn_free_head _ _ _ Hne Ht).
  rewrite Nat.add_0_r.
  rewrite (Hhead _ eq_refl), cstr_at2, (c_str_app_free _ _ _ Ht), Hcx.
  rewrite (strcspn_stop _ _ _ _ Ht Hx), load_at3, Hxn, store_at3.
  reflexivity.
Qed.

Lemma token_split set s :
  free_of [] s = true ->
  free_of set (take_token set s) = true
  /\ free_of [] (after_token set s) = true
  /\ ((s = take_token set s /\ after_token set s = [])
      \/ exists x, mem_char x set = true /\ is_nul x = false
                   /\ s = take_token set s ++ x :: after_token set s).
Proof.
  unfold take_token.
  induction s as [|c s IH]; intros H.
  - simpl. auto.
  - apply free_of_cons in H as (Hn & _ & Hs). simpl.
    destruct (mem_char c set) eqn:E.
    + simpl. split; [reflexivity|]. split; [exact Hs|].
      right. exists c. auto.
    + destruct (IH Hs) as (Ht & Hr & Hcase). simpl.
      split; [|split; [exact Hr|]].
      * unfold free_of in *. simpl. now rewrite Hn, E, Ht.
      * destruct Hcase as [[He Ha]|(x & Hx & Hxn & He)].
        -- left. split; [now f_equal|exact Ha].
        -- right. exists x. split; [exact Hx|]. split; [exact Hxn|].
           now f_equal.
Qed.

Lemma next_token_cases delim s :
  free_of [] s = true ->
  all_in delim (firstn (strspn s delim) s) = true
  /\ match next_token delim s with
     | None => s = firstn (strspn s delim) s
     | Some (t, r) =>
         t <> [] /\ free_of delim t = true /\ free_of [] r = true
         /\ ((s = firstn (strspn s delim) s ++ t /\ r = [])
             \/ exists x, mem_char x delim = true /\ is_nul x = false
                  /\ s = firstn (strspn s delim) s ++ t ++ x :: r)
     end.
Proof.
  unfold next_token.
  induction s as [|c s IH]; intros H.
  - simpl. auto.
  - pose proof (free_of_cons _ _ _ H) as (Hn & _ & Hs).
    cbn [strspn skip_set]. destruct (mem_char c delim) eqn:E.
    + destruct (IH Hs) as (Hdl & Hcase). cbn [firstn]. split.
      * unfold all_in in *. simpl. now rewrite Hn, E, Hdl.
      * destruct (skip_set delim s) as [|c1 s1].
        -- now f_equal.
        -- destruct Hcase as (Ht & Hf & Hr & Hc). repeat split; auto.
           destruct Hc as [[He Hnil]|(x & Hx & Hxn & He)].
           ++ left. split; [|exact Hnil]. simpl. now f_equal.
           ++ right. exists x. repeat split; auto. simpl. now f_equal.
    + cbn [firstn]. split; [reflexivity|].
      destruct (token_split delim (c :: s) H) as (Ht & Hr & Hc).
      split.
      * unfold take_token. simpl. rewrite E. discriminate.
      * split; [exact Ht|]. split; [exact Hr|exact Hc].
Qed.

(** One call of [strtok_r] on a string held in a block, told by
    [next_token]. *)
Lemma strtok_r_next pre s post delim ptr saveptr :
  match ptr with Some p => p | None => saveptr end = List.length pre ->
  free_of [] s = true ->
  match next_token delim s with
  | None =>
      fst (strtok_r (pre ++ s ++ NUL :: post) ptr delim saveptr)
      = (pre ++ s ++ NUL :: post, None)
  | Some (t, r) =>
      exists p pre2 post1,
        strtok_r (pre ++ s ++ NUL :: post) ptr delim saveptr
        = (pre2 ++ r ++ NUL :: post, Some p, List.length pre2)
        /\ cstr_at (pre2 ++ r ++ NUL :: post) p = t
        /\ pre2 ++ r ++ NUL :: post
           = pre ++ (firstn (strspn s delim) s ++ t) ++ NUL :: post1
        /\ free_of [] r = true
  end.
Proof.
  intros Hp Hs.
  destruct (next_token_cases delim s Hs) as (Hdl & Hcase).
  set (dl := firstn (strspn s delim) s) in *. clearbody dl.
  destruct (next_token delim s) as [[t r]|].
  - destruct Hcase as (Hne & Ht & Hr & [[He Hnil]|(x & Hx & Hxn & He)]).
    + subst r s. rewrite <- app_assoc.
      rewrite (strtok_r_last _ _ _ _ _ _ _ Hp Hdl Hne Ht).
      exists (List.length pre + List.length dl), (pre ++ dl ++ t), post.
      repeat split.
      * rewrite !length_app, Nat.add_assoc.
        now rewrite <- !app_assoc.
      * rewrite <- !app_assoc. simpl app. rewrite cstr_at2.
        apply (c_str_free_nul _ _ _ Ht).
      * now rewrite <- !app_assoc.
    + subst s. rewrite <- !app_assoc.
      change ((x :: r) ++ NUL :: post) with (x :: (r ++ NUL :: post)).
      rewrite (strtok_r_delim _ _ _ _ _ _ _ _ Hp Hdl Hne Ht Hx Hxn).
      exists (List.length pre + List.length dl),
             (pre ++ dl ++ t ++ [NUL]), (r ++ NUL :: post).
      repeat split.
      * rewrite !length_app. simpl List.length.
        rewrite <- !app_assoc. simpl app.
        do 2 f_equal. lia.
      * rewrite <- !app_assoc. simpl app. rewrite cstr_at2.
        apply (c_str_free_nul _ _ _ Ht).
      * rewrite <- !app_assoc. reflexivity.
      * exact Hr.
  - subst s. apply (strtok_r_none _ _ _ _ _ _ Hp Hdl).
Qed.

Lemma c_str_free s : free_of [] (c_str s) = true.
Proof.
  induction s as [|c s IH]; [reflexivity|]. simpl.
  destruct (is_nul c) eqn:E; [reflexivity|].
  unfold free_of in *. simpl. rewrite E. exact IH.
Qed.

Lemma strdup_shape raw :
  exists post, strdup raw = c_str raw ++ NUL :: post.
Proof.
  unfold strdup. induction raw as [|c raw IH].
  - exists []. reflexivity.
  - simpl. destruct (is_nul c) eqn:E.
    + exists (raw ++ [NUL]). simpl. f_equal.
      unfold is_nul in E. now apply Ascii.eqb_eq in E.
    + destruct IH as [post IH]. exists post. simpl. now rewrite IH.
Qed.

Lemma free_of_app_inv set a b :
  free_of set (a ++ b) = true ->
  free_of set a = true /\ free_of set b = true.
Proof. rewrite free_of_app. apply andb_true_iff. Qed.

Lemma all_in_free set a : all_in set a = true -> free_of [] a = true.
Proof.
  induction a as [|c a IH]; [reflexivity|]. intros H.
  apply all_in_cons in H as (Hn & _ & Ha).
  unfold free_of in *. simpl. rewrite Hn. exact (IH Ha).
Qed.

(** The first call: afterwards the block holds the first-line view and a
    terminator. *)
Lemma first_strtok_r raw :
  exists post1 r sp,
    strtok_r (strdup raw) (Some 0) [LF] 0
    = (first_line_view (c_str raw) ++ NUL :: post1, r, sp)
    /\ free_of [] (first_line_view (c_str raw)) = true.
Proof.
  destruct (strdup_shape raw) as [post Hshape]. rewrite Hshape.
  pose proof (c_str_free raw) as Hs.
  pose proof (strtok_r_next [] (c_str raw) post [LF] (Some 0) 0
                eq_refl Hs) as Hstep.
  pose proof (next_token_cases [LF] (c_str raw) Hs) as (Hdl & Hcase).
  unfold first_line_view.
  destruct (next_token [LF] (c_str raw)) as [[t r]|].
  - destruct Hstep as (p & pre2 & post1 & Hcall & _ & Hmem & _).
    simpl app in Hcall, Hmem. rewrite Hcall, Hmem.
    exists post1, (Some p), (List.length pre2). split; [reflexivity|].
    destruct Hcase as (_ & Ht & _). rewrite free_of_app.
    rewrite (all_in_free _ _ Hdl), (free_of_weaken _ _ Ht). reflexivity.
  - simpl app in Hstep.
    destruct (strtok_r (c_str raw ++ NUL :: post) (Some 0) [LF] 0)
      as [[mem r] sp].
    simpl in Hstep. injection Hstep as -> ->.
    exists post, None, sp. split; [reflexivity|exact Hs].
Qed.

Lemma trim_last_byte r last :
  free_of [] r = true -> strlen r = S last ->
  c_str (store (strdup r) last NUL) = removelast r.
Proof.
  intros Hr Hlen.
  destruct (exists_last (l := r)) as (v & x & ->).
  { intros ->. discriminate Hlen. }
  unfold strlen in Hlen. rewrite length_app in Hlen. simpl in Hlen.
  assert (last = List.length v) by lia. subst last.
  unfold strdup. rewrite <- app_assoc. simpl app.
  rewrite store_middle, removelast_last.
  apply free_of_app_inv in Hr as [Hv _].
  apply (c_str_free_nul _ _ _ Hv).
Qed.

Lemma parse_request_pure_eq raw :
  parse_request raw = parse_request_pure raw.
Proof.
  unfold parse_request, parse_request_pure.
  destruct (first_strtok_r raw) as (post1 & r1 & sp1 & Hcall1 & Hview).
  rewrite Hcall1.
  set (view := first_line_view (c_str raw)) in *. clearbody view.
  pose proof (strtok_r_next [] view post1 [SP] (Some 0) sp1 eq_refl Hview)
    as Hstep2.
  simpl app in Hstep2.
  destruct (next_token [SP] view) as [[m r2]|].
  - destruct Hstep2 as (p2 & pre2 & _ & Hcall2 & Hm & _ & Hr2).
    rewrite Hcall2, Hm.
    pose proof (strtok_r_next pre2 r2 post1 [SP] None (List.length pre2)
                  eq_refl Hr2) as Hstep3.
    destruct (next_token [SP] r2) as [[u r3]|].
    + destruct Hstep3 as (p3 & pre3 & _ & Hcall3 & Hu & _ & Hr3).
      rewrite Hcall3, Hu, cstr_at_middle, (c_str_free_nul _ _ _ Hr3).
      destruct r3 as [|c r3]; [reflexivity|].
      destruct (strlen (c :: r3)) eqn:Hlen; [discriminate|].
      now rewrite (trim_last_byte _ _ Hr3 Hlen).
    + destruct (strtok_r (pre2 ++ r2 ++ NUL :: post1) None [SP]
                  (List.length pre2)) as [[mem r] sp].
      simpl in Hstep3. injection Hstep3 as -> ->. reflexivity.
  - destruct (strtok_r (view ++ NUL :: post1) (Some 0) [SP] sp1)
      as [[mem r] sp].
    simpl in Hstep2. injection Hstep2 as -> ->. reflexivity.
Qed.

Lemma next_token_Some set s t r :
  next_token set s = Some (t, r) ->
  skip_set set s <> []
  /\ t = take_token set (skip_set set s)
  /\ r = after_token set (skip_set set s).
Proof.
  unfold next_token. destruct (skip_set set s) as [|c s1]; [discriminate|].
  intros H. injection H as <- <-. repeat split. discriminate.
Qed.

Lemma free_of_firstn set n s :
  free_of set s = true -> free_of set (firstn n s) = true.
Proof.
  revert n. induction s as [|c s IH]; intros [|n] H; try reflexivity.
  apply free_of_cons in H as (Hn & Hc & Hs). simpl.
  unfold free_of in *. simpl. rewrite Hn, Hc. simpl. exact (IH n Hs).
Qed.

Lemma free_of_skip_set set d s :
  free_of set s = true -> free_of set (skip_set d s) = true.
Proof.
  induction s as [|c s IH]; intros H; [reflexivity|]. simpl.
  destruct (mem_char c d); [|exact H].
  apply free_of_cons in H as (_ & _ & Hs). exact (IH Hs).
Qed.

Lemma free_of_after_token set d s :
  free_of set s = true -> free_of set (after_token d s) = true.
Proof.
  induction s as [|c s IH]; intros H; [reflexivity|]. simpl.
  apply free_of_cons in H as (_ & _ & Hs).
  destruct (mem_char c d); [exact Hs|exact (IH Hs)].
Qed.

Lemma free_of_take_token set d s :
  free_of set s = true -> free_of set (take_token d s) = true.
Proof. apply free_of_firstn. Qed.

Lemma free_of_removelast set s :
  free_of set s = true -> free_of set (removelast s) = true.
Proof.
  induction s as [|c s IH]; intros H; [reflexivity|].
  apply free_of_cons in H as (Hn & Hc & Hs).
  destruct s as [|c' s]; [reflexivity|].
  change (removelast (c :: c' :: s)) with (c :: removelast (c' :: s)).
  unfold free_of in *. simpl forallb. rewrite Hn, Hc. simpl.
  exact (IH Hs).
Qed.

(** After the first blank of the first-line view no line feed is left:
    the leading line feeds all belong to the first token. *)
Lemma after_token_lead dl line :
  all_in [LF] dl = true -> free_of [LF] line = true ->
  free_of [LF] (after_token [SP] (dl ++ line)) = true.
Proof.
  intros Hdl Hline. induction dl as [|c dl IH].
  - now apply free_of_after_token.
  - apply all_in_cons in Hdl as (_ & Hc & Hdl).
    assert (E : mem_char c [SP] = false).
    { simpl in *. rewrite orb_false_r in *.
      apply Ascii.eqb_eq in Hc. subst c. reflexivity. }
    change ((c :: dl) ++ line) with (c :: (dl ++ line)).
    cbn [after_token]. rewrite E. exact (IH Hdl).
Qed.

Lemma after_first_token_no_LF s :
  free_of [] s = true ->
  free_of [LF]
    (after_token [SP] (skip_set [SP] (first_line_view s))) = true.
Proof.
  intros Hs. unfold first_line_view.
  destruct (next_token_cases [LF] s Hs) as (Hdl & Hcase).
  set (dl := firstn (strspn s [LF]) s) in *. clearbody dl.
  assert (G : forall line, free_of [LF] line = true ->
            free_of [LF] (after_token [SP] (skip_set [SP] (dl ++ line)))
            = true).
  { intros line Hline. destruct dl as [|c dl].
    - simpl. apply free_of_after_token. now apply free_of_skip_set.
    - pose proof (all_in_cons _ _ _ Hdl) as (_ & Hc & _).
      assert (E : mem_char c [SP] = false).
      { simpl in *. rewrite orb_false_r in *.
        apply Ascii.eqb_eq in Hc. subst c. reflexivity. }
      change ((c :: dl) ++ line) with (c :: (dl ++ line)).
      cbn [skip_set]. rewrite E.
      change (c :: dl ++ line) with ((c :: dl) ++ line).
      now apply after_token_lead. }
  destruct (next_token [LF] s) as [[t r]|].
  - destruct Hcase as (_ & Ht & _). exact (G t Ht).
  - rewrite Hcase, <- (app_nil_r dl). exact (G [] eq_refl).
Qed.

Lemma take_token_nonempty set c s :
  mem_char c set = false -> take_token set (c :: s) <> [].
Proof. intros H. unfold take_token. simpl. rewrite H. discriminate. Qed.

Lemma skip_set_head set s c s1 :
  skip_set set s = c :: s1 -> mem_char c set = false.
Proof.
  induction s as [|x s IH]; simpl; [discriminate|].
  destruct (mem_char x set) eqn:E; [exact IH|].
  intros H. injection H as <- <-. exact E.
Qed.

Lemma next_token_token set s t r :
  free_of [] s = true ->
  next_token set s = Some (t, r) ->
  t <> [] /\ free_of set t = true /\ free_of [] r = true.
Proof.
  intros Hs H. pose proof (next_token_cases set s Hs) as (_ & Hc).
  rewrite H in Hc. tauto.
Qed.

Lemma free_of_union set1 set2 t :
  free_of set1 t = true -> free_of set2 t = true ->
  free_of (set1 ++ set2) t = true.
Proof.
  induction t as [|x t IH]; intros H1 H2; [reflexivity|].
  apply free_of_cons in H1 as (Hn & Hx1 & H1).
  apply free_of_cons in H2 as (_ & Hx2 & H2).
  specialize (IH H1 H2). unfold free_of, mem_char in *. cbn [forallb].
  rewrite existsb_app, Hn, Hx1, Hx2. exact IH.
Qed.

Lemma skip_set_free set t rest :
  t <> [] -> free_of set t = true -> skip_set set (t ++ rest) = t ++ rest.
Proof.
  destruct t as [|c t]; [contradiction|]. intros _ H.
  apply free_of_cons in H as (_ & Hc & _). simpl. now rewrite Hc.
Qed.

Lemma take_token_delim set t x r :
  free_of set t = true -> mem_char x set = true ->
  take_token set (t ++ x :: r) = t.
Proof.
  intros Ht Hx. unfold take_token.
  rewrite (strcspn_stop _ _ _ _ Ht Hx). rewrite firstn_app, Nat.sub_diag.
  rewrite firstn_all. simpl. apply app_nil_r.
Qed.

Lemma after_token_delim set t x r :
  free_of set t = true -> mem_char x set = true ->
  after_token set (t ++ x :: r) = r.
Proof.
  intros Ht Hx. induction t as [|c t IH]; simpl.
  - now rewrite Hx.
  - apply free_of_cons in Ht as (_ & Hc & Ht). rewrite Hc. exact (IH Ht).
Qed.

Lemma take_token_end set t : free_of set t = true -> take_token set t = t.
Proof.
  intros Ht. unfold take_token. rewrite (strcspn_end _ _ Ht).
  apply firstn_all.
Qed.

Lemma after_token_end set t : free_of set t = true -> after_token set t = [].
Proof.
  induction t as [|c t IH]; intros Ht; [reflexivity|]. simpl.
  apply free_of_cons in Ht as (_ & Hc & Ht). rewrite Hc. exact (IH Ht).
Qed.

Lemma next_token_delim set t x r :
  t <> [] -> free_of set t = true -> mem_char x set = true ->
  next_token set (t ++ x :: r) = Some (t, r).
Proof.
  intros Hne Ht Hx. unfold next_token.
  rewrite (skip_set_free _ _ _ Hne Ht).
  pose proof (take_token_delim _ _ _ r Ht Hx) as E1.
  pose proof (after_token_delim _ _ _ r Ht Hx) as E2.
  destruct t as [|c t]; [contradiction|].
  change ((c :: t) ++ x :: r) with (c :: (t ++ x :: r)) in *.
  cbv beta iota. now rewrite E1, E2.
Qed.

Lemma next_token_end set t :
  t <> [] -> free_of set t = true -> next_token set t = Some (t, []).
Proof.
  intros Hne Ht. unfold next_token.
  pose proof (skip_set_free set t [] Hne Ht) as E.
  rewrite app_nil_r in E. rewrite E.
  pose proof (take_token_end _ _ Ht) as E1.
  pose proof (after_token_end _ _ Ht) as E2.
  destruct t as [|c t]; [contradiction|].
  cbv beta iota. now rewrite E1, E2.
Qed.

Lemma first_line_view_line line tail :
  line <> [] -> free_of [LF] line = true ->
  first_line_view (c_str (line ++ LF :: tail)) = line.
Proof.
  intros Hne Hline. unfold first_line_view.
  rewrite (c_str_app_free _ _ _ Hline).
  change (c_str (LF :: tail)) with (LF :: c_str tail).
  rewrite (next_token_delim [LF] _ LF _ Hne Hline eq_refl).
  now rewrite (strspn_free_head _ _ _ Hne Hline).
Qed.

Lemma first_line_view_whole s :
  free_of [LF] s = true -> first_line_view (c_str s) = s.
Proof.
  intros Hs. unfold first_line_view.
  pose proof (c_str_app_free _ _ [] Hs) as E.
  rewrite app_nil_r in E. simpl in E. rewrite app_nil_r in E. rewrite E.
  destruct s as [|c s]; [reflexivity|].
  rewrite next_token_end by (discriminate || assumption).
  pose proof (strspn_free_head [LF] (c :: s) [] ltac:(discriminate) Hs)
    as E0.
  rewrite app_nil_r in E0. now rewrite E0.
Qed.

Lemma no_blank_c_str raw :
  no_blank raw = true -> free_of [SP] (c_str raw) = true.
Proof.
  induction raw as [|c raw IH]; intros H; [reflexivity|].
  simpl in H. apply andb_true_iff in H as [Hc H]. simpl.
  destruct (is_nul c) eqn:E; [reflexivity|].
  unfold free_of in *. simpl. rewrite E, orb_false_r, Hc. exact (IH H).
Qed.

Lemma first_line_view_free set s :
  free_of set s = true -> free_of set (first_line_view s) = true.
Proof.
  intros Hs. unfold first_line_view.
  destruct (next_token [LF] s) as [[t r]|] eqn:E; [|exact Hs].
  apply next_token_Some in E as (_ & -> & _).
  rewrite free_of_app, (free_of_firstn _ _ _ Hs).
  apply free_of_take_token. now apply free_of_skip_set.
Qed.

Lemma parse_request_no_blank raw :
  no_blank raw = true -> parse_request raw = Undefined NullPointer.
Proof.
  intros H. rewrite parse_request_pure_eq. unfold parse_request_pure.
  pose proof (first_line_view_free _ _ (no_blank_c_str _ H)) as Hview.
  destruct (first_line_view (c_str raw)) as [|c view]; [reflexivity|].
  rewrite next_token_end by (discriminate || assumption).
  reflexivity.
Qed.

End Tokens.

(** X1.  [parse_request], which cuts its copy of the buffer in place with
    three calls of [strtok_r], computes on every buffer what
    [parse_request_pure] computes on strings: same fields when it returns,
    same undefined behaviour when it does not. *)
Theorem parse_request_equals_pure_tokenizer raw :
  parse_request raw = parse_request_pure raw.
Proof. exact (parse_request_pure_eq raw). Qed.

(** X2.  Whenever [parse_request] returns, the method and the URI are
    not empty and hold no blank and no NUL, and neither the URI nor the
    version holds a line feed: no line feed of the request can reach the
    status line through the version. *)
Theorem parse_request_fields raw r :
  parse_request raw = Returned r ->
  method r <> [] /\ URI r <> []
  /\ free_of [SP] (method r) = true
  /\ free_of [SP; LF] (URI r) = true
  /\ free_of [LF] (httpversion r) = true.
Proof.
  rewrite parse_request_pure_eq. unfold parse_request_pure.
  pose proof (c_str_free raw) as Hs.
  pose proof (after_first_token_no_LF _ Hs) as Hlf.
  assert (Hview : free_of [] (first_line_view (c_str raw)) = true).
  { destruct (first_strtok_r raw) as (_ & _ & _ & _ & H). exact H. }
  set (view := first_line_view (c_str raw)) in *. clearbody view.
  destruct (next_token [SP] view) as [[m r2]|] eqn:E2; [|discriminate].
  destruct (next_token_token _ _ _ _ Hview E2) as (Hm & Fm & Hr2).
  apply next_token_Some in E2 as (_ & _ & Er2). rewrite <- Er2 in Hlf.
  destruct (next_token [SP] r2) as [[u r3]|] eqn:E3; [|discriminate].
  destruct (next_token_token _ _ _ _ Hr2 E3) as (Hu & Fu & Hr3).
  apply next_token_Some in E3 as (_ & Eu & Er3).
  destruct r3 as [|c r3]; [discriminate|].
  intros H. injection H as <-. simpl.
  repeat split; auto.
  - assert (Lu : free_of [LF] u = true).
    { rewrite Eu. apply free_of_take_token. now apply free_of_skip_set. }
    exact (free_of_union [SP] [LF] u Fu Lu).
  - change (free_of [LF] (removelast (c :: r3)) = true).
    apply free_of_removelast. rewrite Er3.
    apply free_of_after_token. now apply free_of_skip_set.
Qed.

Lemma parse_request_fields_witness :
  parse_request
    (cs "POST /form.html HTTP/1.0" ++ CRLF ++ cs "Host: a" ++ CRLF)
  = Returned {| method := cs "POST";
                URI := cs "/form.html";
                httpversion := cs "HTTP/1.0" |}
  /\ cs "POST" <> [] /\ cs "/form.html" <> []
  /\ free_of [SP] (cs "POST") = true
  /\ free_of [SP; LF] (cs "/form.html") = true
  /\ free_of [LF] (cs "HTTP/1.0") = true.
Proof.
  split; [reflexivity|].
  exact (parse_request_fields
           (cs "POST /form.html HTTP/1.0" ++ CRLF ++ cs "Host: a" ++ CRLF)
           {| method := cs "POST";
              URI := cs "/form.html";
              httpversion := cs "HTTP/1.0" |}
           eq_refl).
Defined.

(** X3.  On a buffer without any blank (the empty buffer, a single
    word, a burst of line feeds) [parse_request] hands NULL to [strdup]: the
    behaviour is undefined. *)
Theorem parse_request_without_blank raw :
  no_blank raw = true -> parse_request raw = Undefined NullPointer.
Proof. apply parse_request_no_blank. Qed.

Lemma parse_request_without_blank_witness :
  parse_request (cs "GET" ++ [LF; LF]) = Undefined NullPointer.
Proof.
  exact (parse_request_without_blank (cs "GET" ++ [LF; LF]) eq_refl).
Defined.

(** X4.  On a first line with exactly two tokens (ended by a line
    feed, by a blank and a line feed, or by the end of the buffer) nothing
    is left for the version, and the store that trims it lands before the
    start of an empty block: the behaviour is undefined. *)
Theorem parse_request_two_tokens m u tail :
  m <> [] -> u <> [] ->
  free_of [SP; LF] m = true -> free_of [SP; LF] u = true ->
  parse_request (m ++ SP :: u ++ LF :: tail) = Undefined OutOfBounds
  /\ parse_request (m ++ SP :: u ++ SP :: LF :: tail)
     = Undefined OutOfBounds
  /\ parse_request (m ++ SP :: u) = Undefined OutOfBounds.
Proof.
  intros Hm Hu Fm Fu.
  pose proof (free_of_sub _ _ _ mem_char_LF_SPLF Fm) as Fm1.
  pose proof (free_of_sub _ _ _ mem_char_LF_SPLF Fu) as Fu1.
  pose proof (free_of_sub _ _ _ mem_char_SP_SPLF Fm) as Fm2.
  pose proof (free_of_sub _ _ _ mem_char_SP_SPLF Fu) as Fu2.
  assert (L1 : free_of [LF] (m ++ SP :: u) = true).
  { rewrite free_of_app, Fm1.
    change (SP :: u) with ([SP] ++ u). now rewrite free_of_app, Fu1. }
  assert (L2 : free_of [LF] (m ++ SP :: u ++ [SP]) = true).
  { rewrite free_of_app, Fm1.
    change (SP :: u ++ [SP]) with ([SP] ++ u ++ [SP]).
    now rewrite !free_of_app, Fu1. }
  assert (N1 : m ++ SP :: u <> []) by (destruct m; discriminate).
  assert (N2 : m ++ SP :: u ++ [SP] <> []) by (destruct m; discriminate).
  rewrite !parse_request_pure_eq. unfold parse_request_pure.
  repeat split.
  - replace (m ++ SP :: u ++ LF :: tail)
      with ((m ++ SP :: u) ++ LF :: tail)
      by (now rewrite <- app_assoc).
    rewrite (first_line_view_line _ _ N1 L1).
    rewrite (next_token_delim [SP] _ SP _ Hm Fm2 eq_refl).
    now rewrite (next_token_end _ _ Hu Fu2).
  - replace (m ++ SP :: u ++ SP :: LF :: tail)
      with ((m ++ SP :: u ++ [SP]) ++ LF :: tail)
      by (rewrite <- app_assoc; simpl; now rewrite <- app_assoc).
    rewrite (first_line_view_line _ _ N2 L2).
    rewrite (next_token_delim [SP] _ SP _ Hm Fm2 eq_refl).
    now rewrite (next_token_delim [SP] _ SP _ Hu Fu2 eq_refl).
  - rewrite (first_line_view_whole _ L1).
    rewrite (next_token_delim [SP] _ SP _ Hm Fm2 eq_refl).
    now rewrite (next_token_end _ _ Hu Fu2).
Qed.

Lemma parse_request_two_tokens_witness :
  parse_request (cs "GET" ++ SP :: (cs "/index.html" ++ [CR])
                 ++ LF :: cs "Host: a")
  = Undefined OutOfBounds
  /\ parse_request (cs "GET" ++ SP :: (cs "/index.html" ++ [CR])
                    ++ SP :: LF :: cs "Host: a")
     = Undefined OutOfBounds
  /\ parse_request (cs "GET" ++ SP :: (cs "/index.html" ++ [CR]))
     = Undefined OutOfBounds.
Proof.
  apply (parse_request_two_tokens (cs "GET") (cs "/index.html" ++ [CR])
           (cs "Host: a")).
  - discriminate.
  - discriminate.
  - reflexivity.
  - reflexivity.
Defined.

(** X5.  [parse_request] reads the first line only: what follows the
    first line feed (header lines, a body, what the buffer held before)
    does not change its result. *)
Theorem parse_request_reads_first_line_only line tail tail' :
  line <> [] -> free_of [LF] line = true ->
  parse_request (line ++ LF :: tail) = parse_request (line ++ LF :: tail').
Proof.
  intros Hne Hline. rewrite !parse_request_pure_eq.
  unfold parse_request_pure.
  now rewrite !(first_line_view_line _ _ Hne Hline).
Qed.

Lemma parse_request_reads_first_line_only_witness :
  parse_request (cs "GET /a HTTP/1.1" ++ CR :: LF :: cs "Host: a")
  = parse_request (cs "GET /a HTTP/1.1" ++ CR :: LF :: cs "left over").
Proof.
  apply (parse_request_reads_first_line_only
           (cs "GET /a HTTP/1.1" ++ [CR]) (cs "Host: a") (cs "left over")).
  - discriminate.
  - reflexivity.
Defined.

(** X6.  The version is not a third token: it is everything between
    the blank that ends the URI and the end of the line, less its last
    byte, whatever that byte is.  Further words stay in the version, and a
    line ended by a bare line feed, or by the end of the buffer, loses the
    last character of its version. *)
Theorem parse_request_version_is_rest_less_last_byte m u rest tail :
  m <> [] -> u <> [] -> rest <> [] ->
  free_of [SP; LF] m = true -> free_of [SP; LF] u = true ->
  free_of [LF] rest = true ->
  parse_request (m ++ SP :: u ++ SP :: rest ++ LF :: tail)
  = Returned {| method := m; URI := u; httpversion := removelast rest |}
  /\ parse_request (m ++ SP :: u ++ SP :: rest)
     = Returned {| method := m; URI := u; httpversion := removelast rest |}.
Proof.
  intros Hm Hu Hrest Fm Fu Frest.
  pose proof (free_of_sub _ _ _ mem_char_LF_SPLF Fm) as Fm1.
  pose proof (free_of_sub _ _ _ mem_char_LF_SPLF Fu) as Fu1.
  pose proof (free_of_sub _ _ _ mem_char_SP_SPLF Fm) as Fm2.
  pose proof (free_of_sub _ _ _ mem_char_SP_SPLF Fu) as Fu2.
  assert (L : free_of [LF] (m ++ SP :: u ++ SP :: rest) = true).
  { rewrite free_of_app, Fm1.
    change (SP :: u ++ SP :: rest) with ([SP] ++ u ++ [SP] ++ rest).
    now rewrite !free_of_app, Fu1, Frest. }
  assert (N : m ++ SP :: u ++ SP :: rest <> [])
    by (destruct m; discriminate).
  rewrite !parse_request_pure_eq. unfold parse_request_pure.
  split.
  - replace (m ++ SP :: u ++ SP :: rest ++ LF :: tail)
      with ((m ++ SP :: u ++ SP :: rest) ++ LF :: tail)
      by (rewrite <- app_assoc; simpl; now rewrite <- app_assoc).
    rewrite (first_line_view_line _ _ N L).
    rewrite (next_token_delim [SP] _ SP _ Hm Fm2 eq_refl).
    rewrite (next_token_delim [SP] _ SP _ Hu Fu2 eq_refl).
    destruct rest; [contradiction|reflexivity].
  - rewrite (first_line_view_whole _ L).
    rewrite (next_token_delim [SP] _ SP _ Hm Fm2 eq_refl).
    rewrite (next_token_delim [SP] _ SP _ Hu Fu2 eq_refl).
    destruct rest; [contradiction|reflexivity].
Qed.

Lemma parse_request_version_is_rest_less_last_byte_witness :
  parse_request (cs "GET" ++ SP :: cs "/a" ++ SP :: cs "HTTP/1.1 now"
                 ++ LF :: cs "Host: a")
  = Returned {| method := cs "GET"; URI := cs "/a";
                httpversion := removelast (cs "HTTP/1.1 now") |}
  /\ parse_request (cs "GET" ++ SP :: cs "/a" ++ SP :: cs "HTTP/1.1 now")
     = Returned {| method := cs "GET"; URI := cs "/a";
                   httpversion := removelast (cs "HTTP/1.1 now") |}.
Proof.
  apply (parse_request_version_is_rest_less_last_byte
           (cs "GET") (cs "/a") (cs "HTTP/1.1 now") (cs "Host: a")).
  - discriminate.
  - discriminate.
  - discriminate.
  - reflexivity.
  - reflexivity.
  - reflexivity.
Defined.

(* ================================================================= *)
(** ** More on numbers, paths and responses *)

Section DigitFacts.

Local Open Scope Z_scope.

Lemma get_length_loop_digits fuel : forall temp count k,
  get_length_loop fuel temp count = Some k ->
  0 <= temp -> 0 <= count -> count + Z.of_nat fuel < SIZE_MOD ->
  (temp = 0 -> k = count)
  /\ (0 < temp ->
      count < k /\ 10 ^ (k - count - 1) <= temp < 10 ^ (k - count)).
Proof.
  induction fuel as [|fuel IH]; intros temp count k H Ht Hc Hb;
    [discriminate|].
  cbn [get_length_loop] in H.
  destruct (temp =? 0) eqn:E.
  - apply Z.eqb_eq in E. injection H as <-. split; [reflexivity|lia].
  - apply Z.eqb_neq in E. split; [contradiction|]. intros _.
    unfold to_size_t in H. rewrite Z.mod_small in H by lia.
    pose proof (Z.div_mod temp 10 ltac:(lia)) as Hdm.
    pose proof (Z.mod_pos_bound temp 10 ltac:(lia)) as Hmod.
    assert (Hq : 0 <= temp / 10) by (apply Z.div_pos; lia).
    destruct (IH (temp / 10) (count + 1) k H Hq ltac:(lia) ltac:(lia))
      as [Hzero Hpos].
    destruct (Z.eq_dec (temp / 10) 0) as [Ez|Ez].
    + rewrite (Hzero Ez). split; [lia|].
      replace (count + 1 - count - 1) with 0 by lia.
      replace (count + 1 - count) with 1 by lia.
      change (10 ^ 0) with 1. change (10 ^ 1) with 10. lia.
    + destruct (Hpos ltac:(lia)) as (Hk & Hlo & Hhi).
      split; [lia|].
      replace (k - count - 1) with (Z.succ (k - (count + 1) - 1)) by lia.
      replace (k - count) with (Z.succ (k - (count + 1))) by lia.
      rewrite !Z.pow_succ_r by lia.
      lia.
Qed.

End DigitFacts.

Section MoreFacts.

Local Open Scope sys_scope.

Lemma strrchr_suffix s c ext :
  strrchr s c = Some ext -> exists stem, s = stem ++ ext.
Proof.
  revert ext. induction s as [|x s IH]; intros ext H; [discriminate|].
  simpl in H. destruct (strrchr s c) as [suffix|].
  - injection H as <-. destruct (IH suffix eq_refl) as [stem E].
    exists (x :: stem). simpl. now f_equal.
  - destruct (Ascii.eqb x c); [|discriminate]. injection H as <-.
    now exists [].
Qed.

Lemma supported_extension_entry ext :
  In ext supported_extensions ->
  exists entry, In entry file_map /\ extension entry = ext
                /\ lookup_mime ext = Some (mime_type entry).
Proof.
  intros H. apply in_map_iff in H as (entry & <- & Hin).
  exists entry. split; [exact Hin|]. split; [reflexivity|].
  simpl in Hin. destruct Hin as [<-|[<-|[<-|[<-|[]]]]]; reflexivity.
Qed.

Lemma found_path_entry fs webroot uri :
  snd (get_full_path fs webroot uri) = FOUND ->
  exists stem entry,
    In entry file_map
    /\ webroot ++ uri = stem ++ extension entry
    /\ strrchr (webroot ++ uri) DOT = Some (extension entry)
    /\ content_type_of (webroot ++ uri) = mime_type entry.
Proof.
  intros H. apply get_full_path_status in H as (ext & Hext & _ & Hin).
  destruct (supported_extension_entry ext Hin) as (entry & He & <- & Hm).
  destruct (strrchr_suffix _ _ _ Hext) as [stem Hstem].
  exists stem, entry. repeat split; auto.
  unfold content_type_of. now rewrite Hext, Hm.
Qed.

Lemma last_app_nonempty (a b : list ascii) d :
  b <> [] -> last (a ++ b) d = last b d.
Proof.
  intros Hb. induction a as [|x a IH]; [reflexivity|].
  simpl app. destruct (a ++ b) eqn:E.
  - destruct a; [simpl in E; contradiction|discriminate].
  - simpl in *. exact IH.
Qed.

Lemma ignores_ret {A} (a : A) : ignores_incoming (ret a).
Proof. intros i c. reflexivity. Qed.

Lemma ignores_exit {A} code : ignores_incoming (@exit A code).
Proof. intros i c. reflexivity. Qed.

Lemma ignores_lift {A} (o : outcome A) : ignores_incoming (lift o).
Proof. intros i c. reflexivity. Qed.

Lemma ignores_write buf : ignores_incoming (write buf).
Proof.
  intros i [i0 answers t]. unfold write, with_incoming. simpl.
  destruct answers as [|[|n] rest]; reflexivity.
Qed.

Lemma ignores_close : ignores_incoming close.
Proof. intros i c. reflexivity. Qed.

Lemma ignores_bind {A B} (m : M A) (k : A -> M B) :
  ignores_incoming m -> (forall a, ignores_incoming (k a)) ->
  ignores_incoming (bind m k).
Proof.
  intros Hm Hk i c. unfold bind. rewrite (Hm i c).
  destruct (m c) as [c' [a| | |]]; simpl; try reflexivity.
  apply Hk.
Qed.

Lemma ignores_write_headers data format :
  ignores_incoming (write_headers data format).
Proof.
  unfold write_headers. apply ignores_bind; [apply ignores_write|].
  intros n. destruct (n =? ERROR)%Z; [apply ignores_exit|apply ignores_ret].
Qed.

Lemma ignores_content_type_loop entries ext :
  ignores_incoming (content_type_loop entries ext).
Proof.
  induction entries as [|entry rest IH]; simpl; [apply ignores_ret|].
  destruct (strcmp_is_zero (extension entry) ext); [|exact IH].
  apply ignores_bind; [apply ignores_write_headers|].
  intros _. apply ignores_ret.
Qed.

Lemma ignores_construct_file_response version path status :
  ignores_incoming (construct_file_response version path status).
Proof.
  unfold construct_file_response.
  apply ignores_bind; [apply ignores_write_headers|].
  intros _. destruct (strrchr path DOT) as [ext|].
  - apply ignores_bind; [apply ignores_content_type_loop|].
    intros [|]; simpl; [apply ignores_ret|].
    apply ignores_bind; [apply ignores_write|]. intros _. apply ignores_ret.
  - apply ignores_bind; [apply ignores_write|]. intros _. apply ignores_ret.
Qed.

Lemma ignores_read_write_file heap fs path :
  ignores_incoming (read_write_file heap fs path).
Proof.
  unfold read_write_file.
  destruct (fopen_rb fs path) as [f|]; [|apply ignores_exit].
  cbv zeta. destruct (negb _); [apply ignores_exit|].
  destruct (_ <? _)%Z; [apply ignores_lift|].
  destruct (_ =? _)%Z; [|apply ignores_ret].
  apply ignores_bind.
  - unfold write_content_length.
    destruct (get_length_bytes _);
      [apply ignores_write_headers|apply ignores_lift].
  - intros _. apply ignores_bind; [apply ignores_write|].
    intros n. destruct (n =? ERROR)%Z;
      [apply ignores_exit|apply ignores_ret].
Qed.

(** A block that [malloc] refuses: the process exits, nothing is
    written. *)
Lemma read_write_file_refused heap fs path f c :
  fopen_rb fs path = Some f ->
  (0 <= ftell_size f < 2 ^ 63)%Z ->
  malloc_succeeds heap (ftell_size f + 1) = false ->
  read_write_file heap fs path c = (c, Exited EXIT_FAILURE).
Proof.
  intros Hopen Hlong Hmalloc. unfold read_write_file. rewrite Hopen.
  cbv zeta.
  rewrite (to_size_t_small (ftell_size f)) by (unfold SIZE_MOD; lia).
  rewrite (to_size_t_small (ftell_size f + 1)) by (unfold SIZE_MOD; lia).
  now rewrite Hmalloc.
Qed.

End MoreFacts.

(** X7.  [get_length_bytes] counts the decimal digits of every
    [size_t]: it returns 0 for 0, and for a positive number the [k] with
    [10^(k-1) <= n < 10^k]; the loop always ends. *)
Theorem get_length_bytes_counts_digits n :
  (0 <= n < 2 ^ 64)%Z ->
  exists k,
    get_length_bytes n = Some k
    /\ (n = 0 -> k = 0)%Z
    /\ (0 < n -> 0 < k /\ 10 ^ (k - 1) <= n < 10 ^ k)%Z.
Proof.
  intros H. destruct (get_length_bytes_total n H) as (k & Hk & _).
  exists k. split; [exact Hk|].
  unfold get_length_bytes in Hk.
  apply get_length_loop_digits in Hk; [|lia|lia|reflexivity].
  replace (k - 0 - 1)%Z with (k - 1)%Z in Hk by lia.
  replace (k - 0)%Z with k in Hk by lia. exact Hk.
Qed.

Lemma get_length_bytes_counts_digits_witness :
  exists k,
    get_length_bytes 12345 = Some k
    /\ (12345 = 0 -> k = 0)%Z
    /\ (0 < 12345 -> 0 < k /\ 10 ^ (k - 1) <= 12345 < 10 ^ k)%Z.
Proof. apply (get_length_bytes_counts_digits 12345). lia. Defined.

(** X8.  For every byte count a [size_t] holds,
    [write_content_length] writes one line [Content-Length: <digits>]
    followed by the blank line, and the digits denote the byte count: the
    buffer it sizes with [get_length_bytes] never cuts a digit, not even
    for 0. *)
Theorem content_length_line_denotes_byte_count n c :
  (0 <= n < 2 ^ 64)%Z ->
  pending c = [] ->
  exists digits,
    write_content_length n c
    = (after c [Wrote (cs "Content-Length: " ++ digits ++ CRLF ++ CRLF)],
       Returned tt)
    /\ decimal_value digits = Some n.
Proof.
  intros Hn H. exists (format_zu n). split.
  - rewrite (write_content_length_complete _ _ Hn H).
    unfold header_line. now rewrite <- !app_assoc.
  - now apply decimal_value_format_zu.
Qed.

Lemma content_length_line_denotes_byte_count_witness :
  exists digits,
    write_content_length 1024 (Examples.client "GET /a HTTP/1.1")
    = (after (Examples.client "GET /a HTTP/1.1")
         [Wrote (cs "Content-Length: " ++ digits ++ CRLF ++ CRLF)],
       Returned tt)
    /\ decimal_value digits = Some 1024%Z.
Proof.
  apply (content_length_line_denotes_byte_count 1024
           (Examples.client "GET /a HTTP/1.1")).
  - lia.
  - reflexivity.
Defined.

(** X9.  On a path with status [FOUND], which ends in an extension of the
    MIME table, [construct_file_response] is the write of the status line
    followed by one checked write of that entry's Content-Type line,
    whatever the socket answers: the [application/octet-stream] line is
    never written on the [FOUND] branch.  On a socket that takes every
    byte these are the two lines sent. *)
Theorem found_path_has_table_content_type fs webroot uri :
  snd (get_full_path fs webroot uri) = FOUND ->
  exists stem entry,
    In entry file_map
    /\ webroot ++ uri = stem ++ extension entry
    /\ (forall version status c,
          construct_file_response version (webroot ++ uri) status c
          = Sys.bind (write_headers version status)
              (fun _ => write_headers (mime_type entry) content_header) c)
    /\ (forall version status c,
          pending c = [] ->
          construct_file_response version (webroot ++ uri) status c
          = (after c
               [Wrote (sprintf status version);
                Wrote (cs "Content-Type: " ++ mime_type entry ++ CRLF)],
             Returned tt)).
Proof.
  intros H.
  destruct (found_path_entry fs webroot uri H)
    as (stem & entry & Hin & Hpath & Hext & Htype).
  exists stem, entry. split; [exact Hin|]. split; [exact Hpath|]. split.
  - intros version status c. unfold construct_file_response.
    rewrite Hext.
    assert (Hloop : content_type_loop file_map (extension entry)
                    = Sys.bind (write_headers (mime_type entry)
                                  content_header)
                        (fun _ => ret true)).
    { simpl in Hin. destruct Hin as [<-|[<-|[<-|[<-|[]]]]]; reflexivity. }
    rewrite Hloop. unfold Sys.bind.
    destruct (write_headers version status c) as [c1 [[]| | |]];
      try reflexivity.
    destruct (write_headers (mime_type entry) content_header c1)
      as [c2 [[]| | |]]; reflexivity.
  - intros version status c Hc.
    rewrite (construct_file_response_complete _ _ _ _ Hc), Htype.
    reflexivity.
Qed.

Lemma found_path_has_table_content_type_witness :
  exists stem entry,
    In entry file_map
    /\ cs "/srv/www" ++ cs "/index.html" = stem ++ extension entry
    /\ (forall version status c,
          construct_file_response version
            (cs "/srv/www" ++ cs "/index.html") status c
          = Sys.bind (write_headers version status)
              (fun _ => write_headers (mime_type entry) content_header) c)
    /\ (forall version status c,
          pending c = [] ->
          construct_file_response version
            (cs "/srv/www" ++ cs "/index.html") status c
          = (after c
               [Wrote (sprintf status version);
                Wrote (cs "Content-Type: " ++ mime_type entry ++ CRLF)],
             Returned tt)).
Proof.
  exact (found_path_has_table_content_type
           Examples.www (cs "/srv/www") (cs "/index.html") eq_refl).
Defined.

(** X10.  A URI that ends in a slash never resolves to [FOUND],
    whatever the file system holds: there is no index document and no
    directory listing. *)
Theorem directory_request_is_not_found fs webroot prefix :
  get_full_path fs webroot (prefix ++ cs "/")
  = (webroot ++ prefix ++ cs "/", NOT_FOUND).
Proof.
  destruct (get_full_path fs webroot (prefix ++ cs "/")) as [path status]
    eqn:E.
  assert (Hpath : path = webroot ++ prefix ++ cs "/")
    by (unfold get_full_path in E; now injection E as <- _).
  subst path. f_equal.
  destruct status; [|reflexivity]. exfalso.
  pose proof (found_path_entry fs webroot (prefix ++ cs "/")) as H.
  rewrite E in H. destruct (H eq_refl) as (stem & entry & Hin & Hp & _).
  apply (f_equal (fun l => last l NUL)) in Hp.
  rewrite !app_assoc in Hp.
  rewrite (last_app_nonempty _ (cs "/")) in Hp by discriminate.
  simpl in Hin. destruct Hin as [<-|[<-|[<-|[<-|[]]]]];
    rewrite last_app_nonempty in Hp by discriminate; discriminate Hp.
Qed.

(** X11.  When the path is [FOUND] but [fopen] fails (the file
    exists and may not be read, or vanished after [access]), the handler
    has already sent the [200 OK] status line and the Content-Type line; it
    then calls [exit(EXIT_FAILURE)] without closing the connection. *)
Theorem unreadable_found_file_ends_process env c data request :
  incoming c = Some data ->
  parse_request (c_str (request_buffer env data)) = Returned request ->
  snd (get_full_path (files env) (webroot env) (URI request)) = FOUND ->
  fopen_rb (files env) (webroot env ++ URI request) = None ->
  pending c = [] ->
  process_client_request env c
  = (after c
       [Wrote (status_line (httpversion request) (cs "200 OK"));
        Wrote (header_line (cs "Content-Type")
                 (content_type_of (webroot env ++ URI request)))],
     Exited EXIT_FAILURE).
Proof.
  intros Hin Hparse Hfound Hopen H.
  rewrite (process_parsed _ _ _ _ Hin Hparse), Hfound.
  unfold bind at 1. unfold bind at 1.
  rewrite (construct_file_response_complete _ _ _ _ H), sprintf_found.
  unfold read_write_file. rewrite Hopen. reflexivity.
Qed.

Lemma unreadable_found_file_ends_process_witness :
  process_client_request Examples.server
    (Examples.client "GET /secret.html HTTP/1.1")
  = (after (Examples.client "GET /secret.html HTTP/1.1")
       [Wrote (cs "HTTP/1.1 200 OK" ++ CRLF);
        Wrote (cs "Content-Type: text/html" ++ CRLF)],
     Exited EXIT_FAILURE).
Proof.
  exact (unreadable_found_file_ends_process
           Examples.server (Examples.client "GET /secret.html HTTP/1.1")
           (cs "GET /secret.html HTTP/1.1" ++ CRLF)
           {| method := cs "GET";
              URI := cs "/secret.html";
              httpversion := cs "HTTP/1.1" |}
           eq_refl eq_refl eq_refl eq_refl eq_refl).
Defined.

(** X12.  On a [FOUND] path whose file opens and whose size probe
    succeeded, on a socket that takes every byte: when [malloc] refuses
    the block for the file (a directory reports the largest [long]) the
    handler leaves through [exit(EXIT_FAILURE)] after the status and
    Content-Type lines, without closing; when [malloc] grants it the
    handler returns and closes, and after the two lines it sends either
    nothing (the file delivered fewer bytes than the probe announced) or a
    Content-Length line followed by a body of exactly that many bytes, the
    first [ftell] bytes of the file even when the file has grown since the
    probe. *)
Theorem content_length_matches_body env c data request f :
  incoming c = Some data ->
  parse_request (c_str (request_buffer env data)) = Returned request ->
  snd (get_full_path (files env) (webroot env) (URI request)) = FOUND ->
  fopen_rb (files env) (webroot env ++ URI request) = Some f ->
  (0 <= ftell_size f < 2 ^ 63)%Z ->
  pending c = [] ->
  if malloc_succeeds (heap_limit env) (ftell_size f + 1)
  then
    exists sent,
      process_client_request env c
      = (after c
           ([Wrote (status_line (httpversion request) (cs "200 OK"));
             Wrote (header_line (cs "Content-Type")
                      (content_type_of (webroot env ++ URI request)))]
            ++ sent ++ [Closed]),
         Returned tt)
      /\ ((sent = []
           /\ (Z.of_nat (List.length (stored f)) < ftell_size f)%Z)
          \/ (exists digits body,
                sent = [Wrote (cs "Content-Length: " ++ digits
                               ++ CRLF ++ CRLF);
                        Wrote body]
                /\ decimal_value digits
                   = Some (Z.of_nat (List.length body))
                /\ body = firstn (Z.to_nat (ftell_size f)) (stored f)
                /\ Z.of_nat (List.length body) = ftell_size f))
  else
    process_client_request env c
    = (after c
         [Wrote (status_line (httpversion request) (cs "200 OK"));
          Wrote (header_line (cs "Content-Type")
                   (content_type_of (webroot env ++ URI request)))],
       Exited EXIT_FAILURE).
Proof.
  intros Hin Hparse Hfound Hopen Hlong H.
  assert (R : (0 <= ftell_size f < SIZE_MOD)%Z) by (unfold SIZE_MOD; lia).
  assert (Hall : fread_all f = firstn (Z.to_nat (ftell_size f)) (stored f))
    by (unfold fread_all; now rewrite (to_size_t_small _ R)).
  destruct (malloc_succeeds (heap_limit env) (ftell_size f + 1))
    eqn:Hmalloc.
  - destruct (Z.eq_dec (bytes_read f) (ftell_size f)) as [E|E].
    + exists [Wrote (cs "Content-Length: " ++ format_zu (ftell_size f)
                     ++ CRLF ++ CRLF);
              Wrote (fread_all f)].
      split.
      * rewrite (process_found env c data request f Hin Hparse Hfound Hopen
                   (proj1 Hlong) Hmalloc E H).
        unfold header_line. simpl app. now rewrite <- !app_assoc.
      * right. exists (format_zu (ftell_size f)), (fread_all f).
        split; [reflexivity|]. fold (bytes_read f). rewrite E.
        split; [now apply decimal_value_format_zu|]. split; [exact Hall|].
        reflexivity.
    + exists []. split.
      * rewrite (process_parsed _ _ _ _ Hin Hparse), Hfound.
        unfold bind at 1. unfold bind at 1.
        rewrite (construct_file_response_complete _ _ _ _ H), sprintf_found.
        rewrite (read_write_file_short _ _ _ _ _ Hopen Hlong E), Hmalloc.
        unfold close, log, after. simpl. now rewrite <- app_assoc.
      * left. split; [reflexivity|].
        unfold bytes_read in E. rewrite Hall, length_firstn in E. lia.
  - rewrite (process_parsed _ _ _ _ Hin Hparse), Hfound.
    unfold bind at 1. unfold bind at 1.
    rewrite (construct_file_response_complete _ _ _ _ H), sprintf_found.
    rewrite (read_write_file_refused _ _ _ _ _ Hopen Hlong Hmalloc).
    reflexivity.
Qed.

Lemma content_length_matches_body_witness :
  exists sent,
    process_client_request MoreExamples.growing_server
      (Examples.client "GET /log.html HTTP/1.1")
    = (after (Examples.client "GET /log.html HTTP/1.1")
         ([Wrote (status_line (cs "HTTP/1.1") (cs "200 OK"));
           Wrote (header_line (cs "Content-Type")
                    (content_type_of (cs "/srv/www" ++ cs "/log.html")))]
          ++ sent ++ [Closed]),
       Returned tt)
    /\ ((sent = []
         /\ (Z.of_nat (List.length (cs "hello world")) < 5)%Z)
        \/ (exists digits body,
              sent = [Wrote (cs "Content-Length: " ++ digits
                             ++ CRLF ++ CRLF);
                      Wrote body]
              /\ decimal_value digits
                 = Some (Z.of_nat (List.length body))
              /\ body = firstn (Z.to_nat 5) (cs "hello world")
              /\ Z.of_nat (List.length body) = 5%Z)).
Proof.
  apply (content_length_matches_body
           MoreExamples.growing_server
           (Examples.client "GET /log.html HTTP/1.1")
           (cs "GET /log.html HTTP/1.1" ++ CRLF)
           {| method := cs "GET";
              URI := cs "/log.html";
              httpversion := cs "HTTP/1.1" |}
           {| readable := true; ftell_size := 5;
              stored := cs "hello world" |}).
  - reflexivity.
  - reflexivity.
  - reflexivity.
  - reflexivity.
  - simpl. lia.
  - reflexivity.
Defined.

(** X13.  The handler never looks at the method: two requests that
    parse to the same URI and version get the same writes, the same close
    and the same outcome. *)
Theorem method_is_ignored env c data data' request request' :
  incoming c = Some data ->
  parse_request (c_str (request_buffer env data)) = Returned request ->
  parse_request (c_str (request_buffer env data')) = Returned request' ->
  URI request' = URI request ->
  httpversion request' = httpversion request ->
  process_client_request env (with_incoming (Some data') c)
  = (with_incoming (Some data') (fst (process_client_request env c)),
     snd (process_client_request env c)).
Proof.
  intros Hin Hparse Hparse' Huri Hversion.
  rewrite (process_parsed env c data request Hin Hparse).
  rewrite (process_parsed env (with_incoming (Some data') c) data' request'
             eq_refl Hparse').
  rewrite Huri, Hversion.
  apply ignores_bind; [|intros _; apply ignores_close].
  destruct (snd (get_full_path (files env) (webroot env) (URI request))).
  - apply ignores_bind; [apply ignores_construct_file_response|].
    intros _. apply ignores_read_write_file.
  - apply ignores_bind; [apply ignores_construct_file_response|].
    intros _. apply ignores_bind; [apply ignores_write|].
    intros _. apply ignores_ret.
Qed.

Lemma method_is_ignored_witness :
  process_client_request Examples.server
    (with_incoming (Some (cs "DELETE /index.html HTTP/1.1" ++ CRLF))
       (Examples.client "GET /index.html HTTP/1.1"))
  = (with_incoming (Some (cs "DELETE /index.html HTTP/1.1" ++ CRLF))
       (fst (process_client_request Examples.server
               (Examples.client "GET /index.html HTTP/1.1"))),
     snd (process_client_request Examples.server
            (Examples.client "GET /index.html HTTP/1.1"))).
Proof.
  exact (method_is_ignored
           Examples.server (Examples.client "GET /index.html HTTP/1.1")
           (cs "GET /index.html HTTP/1.1" ++ CRLF)
           (cs "DELETE /index.html HTTP/1.1" ++ CRLF)
           {| method := cs "GET";
              URI := cs "/index.html";
              httpversion := cs "HTTP/1.1" |}
           {| method := cs "DELETE";
              URI := cs "/index.html";
              httpversion := cs "HTTP/1.1" |}
           eq_refl eq_refl eq_refl eq_refl eq_refl).
Defined.

(** X18.  A client whose request holds no blank, for instance one that
    sends a single word or nothing at all into a zeroed buffer, drives the
    handler into undefined behaviour before it has written a byte; the
    connection is not closed. *)
Theorem request_without_blank_is_undefined env c data :
  incoming c = Some data ->
  no_blank (c_str (request_buffer env data)) = true ->
  process_client_request env c = (c, Undefined NullPointer).
Proof.
  intros Hin Hblank. unfold process_client_request.
  unfold Sys.bind at 1. unfold read. rewrite Hin, not_ERROR.
  unfold Sys.bind, lift. unfold request_buffer in Hblank.
  now rewrite (parse_request_no_blank _ Hblank).
Qed.

Lemma request_without_blank_is_undefined_witness :
  process_client_request MoreExamples.growing_server
    {| incoming := Some []; pending := []; trace := [] |}
  = ({| incoming := Some []; pending := []; trace := [] |},
     Undefined NullPointer).
Proof.
  exact (request_without_blank_is_undefined
           MoreExamples.growing_server
           {| incoming := Some []; pending := []; trace := [] |}
           [] eq_refl eq_refl).
Defined.

(* ================================================================= *)
(** ** The listening socket and the accept loop *)

Section ListenerFacts.

Lemma setup_listening_socket_run portno backlog k :
  setup_listening_socket portno backlog k
  = match first_error (answers_from k (next k) 4) with
    | None =>
        (advance k 4 (setup_calls (answer k (next k)) portno backlog),
         Finished (answer k (next k)))
    | Some n =>
        (advance k (S n)
           (firstn (S n) (setup_calls (answer k (next k)) portno backlog)),
         ProcessExit EXIT_FAILURE)
    end.
Proof.
  unfold setup_listening_socket, answers_from, bindK, syscall, advance,
    exitK, retK, setup_calls, htons_port.
  cbn [seq map first_error next answer calls webroot_set].
  destruct (answer k (next k) =? ERROR)%Z eqn:E0; [reflexivity|].
  destruct (answer k (S (next k)) =? ERROR)%Z eqn:E1;
    cbn [option_map next answer calls webroot_set firstn Nat.add];
    rewrite ?E1.
  { now rewrite <- app_assoc. }
  destruct (answer k (S (S (next k))) =? ERROR)%Z eqn:E2;
    cbn [option_map next answer calls webroot_set firstn Nat.add];
    rewrite ?E2.
  { now rewrite <- !app_assoc. }
  destruct (answer k (S (S (S (next k)))) =? ERROR)%Z eqn:E3;
    cbn [option_map next answer calls webroot_set firstn Nat.add];
    rewrite ?E3.
  { now rewrite <- !app_assoc. }
  now rewrite <- !app_assoc.
Qed.

Lemma accept_loop_calls sockfd rounds : forall k,
  accept_loop sockfd rounds k
  = (advance k rounds (accept_calls sockfd (answers_from k (next k) rounds)),
     StillRunning).
Proof.
  induction rounds as [|rounds IH]; intros k.
  - unfold advance. simpl. rewrite app_nil_r. now destruct k.
  - cbn [accept_loop]. unfold bindK at 1. unfold syscall.
    unfold answers_from. cbn [seq map accept_calls].
    destruct (answer k (next k) =? ERROR)%Z.
    + rewrite IH. unfold advance, answers_from. cbn.
      rewrite <- app_assoc, Nat.add_succ_r. reflexivity.
    + unfold bindK, poolcall. rewrite IH.
      unfold advance, answers_from. cbn.
      rewrite <- !app_assoc, Nat.add_succ_r. reflexivity.
Qed.

Lemma dispatched_app l1 l2 :
  dispatched (l1 ++ l2) = dispatched l1 ++ dispatched l2.
Proof.
  induction l1 as [|c l1 IH]; [reflexivity|].
  destruct c; simpl; rewrite IH; reflexivity.
Qed.

Lemma dispatched_accept_calls sockfd answers :
  dispatched (accept_calls sockfd answers)
  = filter (fun a => negb (a =? ERROR)%Z) answers.
Proof.
  induction answers as [|a rest IH]; [reflexivity|].
  cbn [accept_calls filter dispatched].
  destruct (a =? ERROR)%Z; simpl; now rewrite IH.
Qed.

End ListenerFacts.

(** X14.  [setup_listening_socket] calls [socket], [setsockopt]
    (SO_REUSEADDR), [bind] and [listen] in this order on the descriptor
    [socket] returned, binding the port number reduced to 16 bits.  It
    returns that descriptor when all four succeed; at the first call that
    fails it leaves through [exit(EXIT_FAILURE)] and makes no later
    call. *)
Theorem setup_listening_socket_stops_at_first_failure portno backlog k :
  setup_listening_socket portno backlog k
  = match first_error (answers_from k (next k) 4) with
    | None =>
        (advance k 4 (setup_calls (answer k (next k)) portno backlog),
         Finished (answer k (next k)))
    | Some n =>
        (advance k (S n)
           (firstn (S n) (setup_calls (answer k (next k)) portno backlog)),
         ProcessExit EXIT_FAILURE)
    end.
Proof. apply setup_listening_socket_run. Qed.

(** X15.  The accept loop of [main] never ends of its own: however
    long it is observed it is still running.  Every client [accept]
    returns is handed to [add_client_work] once, in the order of arrival,
    right after its [accept]; a failed [accept] is skipped and the loop
    goes on. *)
Theorem accept_loop_dispatches_every_accepted_client sockfd rounds k :
  snd (accept_loop sockfd rounds k) = StillRunning
  /\ calls (fst (accept_loop sockfd rounds k))
     = calls k ++ accept_calls sockfd (answers_from k (next k) rounds)
  /\ dispatched (calls (fst (accept_loop sockfd rounds k)))
     = dispatched (calls k)
       ++ filter (fun a => negb (a =? ERROR)%Z)
            (answers_from k (next k) rounds).
Proof.
  rewrite accept_loop_calls. cbn [fst snd advance calls].
  split; [reflexivity|]. split; [reflexivity|].
  now rewrite dispatched_app, dispatched_accept_calls.
Qed.

(** X16.  With any number of arguments other than the program
    name, a port and a web root, [main] leaves through
    [exit(EXIT_FAILURE)] before it makes any call: no thread pool, no
    socket. *)
Theorem main_rejects_wrong_argument_count BACKLOG argv rounds k :
  List.length argv <> 3 ->
  main BACKLOG argv rounds k = (k, ProcessExit EXIT_FAILURE).
Proof.
  intros H. destruct argv as [|a0 [|a1 [|a2 [|a3 rest]]]]; try reflexivity.
  contradiction.
Qed.

Lemma main_rejects_wrong_argument_count_witness :
  main 10 [cs "./server"; cs "8080"] 5 MoreExamples.friendly
  = (MoreExamples.friendly, ProcessExit EXIT_FAILURE).
Proof.
  apply (main_rejects_wrong_argument_count 10
           [cs "./server"; cs "8080"] 5 MoreExamples.friendly).
  simpl. lia.
Defined.

(** X17.  With a port [atoi] can read and a kernel that lets the
    four set-up calls succeed, the log of [main] shows the order: it
    stores the web root, then starts the thread pool, only then opens the
    listening socket, on the port reduced to 16 bits and with backlog
    [BACKLOG], and enters the accept loop on the descriptor [socket]
    returned. *)
Theorem main_serves_after_setup BACKLOG prog port root rounds k portno :
  atoi port = Some portno ->
  first_error (answers_from k (next k) 4) = None ->
  main BACKLOG [prog; port; root] rounds k
  = ({| answer := answer k;
        next := rounds + (4 + next k);
        calls :=
          calls k
          ++ store_webroot root
             :: call_initialise_threadpool
             :: setup_calls (answer k (next k)) portno BACKLOG
          ++ accept_calls (answer k (next k))
               (answers_from k (4 + next k) rounds);
        webroot_set := Some root |},
     StillRunning).
Proof.
  intros Hport Hok. unfold main. rewrite Hport.
  unfold bindK at 1. unfold set_webroot.
  unfold bindK at 1. unfold poolcall. cbn [answer next calls webroot_set].
  unfold bindK at 1. rewrite setup_listening_socket_run.
  unfold answers_from in *. cbn [answer next calls webroot_set].
  rewrite Hok. rewrite accept_loop_calls.
  unfold advance, answers_from. cbn [answer next calls webroot_set].
  rewrite <- !app_assoc. reflexivity.
Qed.

Lemma main_serves_after_setup_witness :
  main 10 [cs "./server"; cs "65616"; cs "/srv/www"] 3 MoreExamples.friendly
  = ({| answer := answer MoreExamples.friendly;
        next := 7;
        calls :=
          [store_webroot (cs "/srv/www");
           call_initialise_threadpool;
           call_socket; call_setsockopt 3; call_bind 3 80; call_listen 3 10;
           call_accept 3; call_add_client_work 4;
           call_accept 3;
           call_accept 3; call_add_client_work 5];
        webroot_set := Some (cs "/srv/www") |},
     StillRunning).
Proof.
  exact (main_serves_after_setup 10 (cs "./server") (cs "65616")
           (cs "/srv/www") 3 MoreExamples.friendly 65616 eq_refl eq_refl).
Defined.
